(** * python-playground: a shallow embedding of the three operator scripts

    - [S3Delete]  : thread-test/s3_threaded_delete.py (threaded bulk delete)
    - [EbsBackup] : ebs-backup-worker/ebs-backup-worker.py (cleanup_snapshots)
    - [SgAudit]   : boto3-security-group-audit/sg-audit.py (orphan detection)

    Remote services are oracles (records of functions); a call that raises
    returns [Raise e].  Threads are modelled by an interleaving semantics:
    one atomic step per blocking or remote operation. *)

From Stdlib Require Import ZArith Lia Permutation.

From stdpp Require Import gmap strings list fin_maps pretty.

(** ** Python values and exceptions *)

#[warnings="-register-all"]
Inductive pyval :=
| PyNone
| PyBool (b : bool)
| PyInt (z : Z)
| PyStr (s : string)
| PyList (l : list pyval)
| PyDict (d : list (string * pyval)).

Inductive exn :=
| KeyError (k : string)
| ValueError (msg : string)
| ParamValidationError (msg : string)
| ClientError (msg : string)
| PyException (msg : string).

Inductive result (A : Type) :=
| Ok (a : A)
| Raise (e : exn).

Arguments Ok {A} a.

Arguments Raise {A} e.

(** ** thread-test/s3_threaded_delete.py *)

Module S3Delete.

(** An entry of response['Contents']; the script reads only 'Key'. *)
Record s3_object := { Key : string }.

(** The response of list_objects_v2.  S3 leaves 'Contents' out when no key
    matches; a truncated listing carries a continuation token. *)
Record list_response := {
  Contents : option (list s3_object);
  IsTruncated : bool;
  NextContinuationToken : option string
}.

(** boto3.client('s3'), as far as the script uses it.  [list_objects_v2 b p tok]
    is the reply to Bucket=b, Prefix=p and the optional ContinuationToken;
    [delete_object b k] is [None] when the call returns and [Some e] when it
    raises [e]. *)
Record s3_client := {
  list_objects_v2 : string -> string -> option string -> result list_response;
  delete_object : string -> string -> option exn
}.

(** The tuple (bucket, key) put on the queue. *)
Definition task : Type := string * string.

(** queue.Queue of the standard library: the deque and the counter
    unfinished_tasks that put increments, task_done decrements and join
    waits on. *)
Module Queue.

Record t := { items : list task; unfinished_tasks : nat }.

Definition empty : t := {| items := []; unfinished_tasks := 0 |}.

Definition put (x : task) (q : t) : t :=
  {| items := items q ++ [x]; unfinished_tasks := S (unfinished_tasks q) |}.

(** [None]: the queue is empty and the caller stays blocked. *)
Definition get (q : t) : option (task * t) :=
  match items q with
  | [] => None
  | x :: rest => Some (x, {| items := rest; unfinished_tasks := unfinished_tasks q |})
  end.

Definition task_done (q : t) : result t :=
  match unfinished_tasks q with
  | O => Raise (ValueError "task_done() called too many times")
  | S n => Ok {| items := items q; unfinished_tasks := n |}
  end.

(** join returns once unfinished_tasks is zero, and blocks until then. *)
Definition join_ready (q : t) : bool :=
  match unfinished_tasks q with O => true | S _ => false end.

End Queue.

(** The event argument of handler: a dict decoded from JSON. *)
Abbreviation event := (gmap string pyval).

(** Where a DeleteWorker.run is. *)
Inductive wstate :=
| WGet                                  (* line 20: at queue.get() *)
| WTry (t : task)                       (* lines 21-23: holds t, delete_object next *)
| WFinally (t : task) (r : option exn)  (* line 25: task_done next, r pending *)
| WDead (e : exn).                      (* e left run(): the thread has ended *)

(** Where handler is. *)
Inductive mstate :=
| MList                                              (* lines 28-29 *)
| MStart (xs : list nat) (bucket : string) (response : list_response)
                                                     (* lines 30-34, x still to come *)
| MContents (bucket : string) (response : list_response)
                                                     (* line 35: response['Contents'] *)
| MPut (bucket : string) (objs : list s3_object)     (* lines 35-37 *)
| MJoin                                              (* line 38 *)
| MReturned (v : pyval)                              (* after line 39 *)
| MRaised (e : exn).                                 (* e left handler *)

(** What has happened so far, oldest first.  The script keeps none of it;
    the history is what the claims count. *)
Inductive hevent :=
| EvList (bucket prefix : string) (token : option string)
| EvStart (x : nat)
| EvPut (t : task)
| EvGet (w : nat) (t : task)
| EvDelete (w : nat) (t : task) (r : option exn)
| EvAck (w : nat) (t : task) (r : option exn)
| EvComplete.

Record state := {
  main : mstate;
  workers : list wstate;
  queue : Queue.t;
  history : list hevent
}.

Definition init : state :=
  {| main := MList; workers := []; queue := Queue.empty; history := [] |}.

Definition pool_size : nat := 8.

(** One step of handler.  event is never assigned to, so event['Bucket'] at
    lines 36-37 is the string read and validated at line 29; it is kept in
    the control state. *)
Definition step_main (c : s3_client) (ev : event) (s : state) : option state :=
  match main s with
  | MList =>
      match ev !! "Bucket" with
      | None => Some {| main := MRaised (KeyError "Bucket"); workers := workers s;
                        queue := queue s; history := history s |}
      | Some vb =>
        match ev !! "Prefix" with
        | None => Some {| main := MRaised (KeyError "Prefix"); workers := workers s;
                          queue := queue s; history := history s |}
        | Some vp =>
          match vb, vp with
          | PyStr b, PyStr p =>
              let h := history s ++ [EvList b p None] in
              match list_objects_v2 c b p None with
              | Raise e => Some {| main := MRaised e; workers := workers s;
                                   queue := queue s; history := h |}
              | Ok r => Some {| main := MStart (seq 0 pool_size) b r; workers := workers s;
                                queue := Queue.empty; history := h |}
              end
          | _, _ => Some {| main := MRaised (ParamValidationError "list_objects_v2");
                            workers := workers s; queue := queue s; history := history s |}
          end
        end
      end
  | MStart (x :: xs) b r =>
      Some {| main := MStart xs b r; workers := workers s ++ [WGet];
              queue := queue s; history := history s ++ [EvStart x] |}
  | MStart [] b r =>
      Some {| main := MContents b r; workers := workers s;
              queue := queue s; history := history s |}
  | MContents b r =>
      match Contents r with
      | None => Some {| main := MRaised (KeyError "Contents"); workers := workers s;
                        queue := queue s; history := history s |}
      | Some objs => Some {| main := MPut b objs; workers := workers s;
                             queue := queue s; history := history s |}
      end
  | MPut b (obj :: objs) =>
      Some {| main := MPut b objs; workers := workers s;
              queue := Queue.put (b, Key obj) (queue s);
              history := history s ++ [EvPut (b, Key obj)] |}
  | MPut b [] =>
      Some {| main := MJoin; workers := workers s;
              queue := queue s; history := history s |}
  | MJoin =>
      if Queue.join_ready (queue s)
      then Some {| main := MReturned PyNone; workers := workers s;
                   queue := queue s; history := history s ++ [EvComplete] |}
      else None
  | MReturned _ => None
  | MRaised _ => None
  end.

(** One step of worker number [i] (in start order). *)
Definition step_worker (c : s3_client) (i : nat) (s : state) : option state :=
  match workers s !! i with
  | None => None
  | Some WGet =>
      match Queue.get (queue s) with
      | None => None
      | Some (t, q) =>
          Some {| main := main s; workers := <[i := WTry t]> (workers s);
                  queue := q; history := history s ++ [EvGet i t] |}
      end
  | Some (WTry t) =>
      let r := delete_object c t.1 t.2 in
      Some {| main := main s; workers := <[i := WFinally t r]> (workers s);
              queue := queue s; history := history s ++ [EvDelete i t r] |}
  | Some (WFinally t r) =>
      match Queue.task_done (queue s) with
      | Raise e =>
          Some {| main := main s; workers := <[i := WDead e]> (workers s);
                  queue := queue s; history := history s |}
      | Ok q =>
          Some {| main := main s;
                  workers := <[i := match r with None => WGet | Some e => WDead e end]>
                               (workers s);
                  queue := q; history := history s ++ [EvAck i t r] |}
      end
  | Some (WDead _) => None
  end.

Inductive tid := TMain | TWorker (i : nat).

Definition step (c : s3_client) (ev : event) (t : tid) (s : state) : option state :=
  match t with
  | TMain => step_main c ev s
  | TWorker i => step_worker c i s
  end.

(** The states a run can be in, under any scheduling. *)
Inductive Reachable (c : s3_client) (ev : event) : state -> Prop :=
| R_init : Reachable c ev init
| R_step s t s' : Reachable c ev s -> step c ev t s = Some s' -> Reachable c ev s'.

(** A run under a schedule; a thread that cannot move is passed over. *)
Fixpoint run (c : s3_client) (ev : event) (sched : list tid) (s : state) : state :=
  match sched with
  | [] => s
  | t :: rest =>
      match step c ev t s with
      | Some s' => run c ev rest s'
      | None => run c ev rest s
      end
  end.

(** No thread can move. *)
Definition stuck (c : s3_client) (ev : event) (s : state) : Prop :=
  forall t, step c ev t s = None.

(** *** What the history says *)

Definition put_of (e : hevent) : option task :=
  match e with EvPut t => Some t | _ => None end.

Definition ack_of (e : hevent) : option (task * option exn) :=
  match e with EvAck _ t r => Some (t, r) | _ => None end.

Definition list_of (e : hevent) : option (string * string * option string) :=
  match e with EvList b p tok => Some (b, p, tok) | _ => None end.

(** The tasks enqueued, in order. *)
Definition puts (s : state) : list task := omap put_of (history s).

(** The acknowledgements (task_done calls that went through), each with the
    outcome of the delete before it. *)
Definition acks (s : state) : list (task * option exn) := omap ack_of (history s).

Definition acked (s : state) : list task := (acks s).*1.

Definition list_calls (s : state) : list (string * string * option string) :=
  omap list_of (history s).

Definition is_ok (a : task * option exn) : bool :=
  match a.2 with None => true | Some _ => false end.

Definition submitted (s : state) : nat := length (puts s).

Definition succeeded (s : state) : nat := length (List.filter is_ok (acks s)).

Definition failed (s : state) : nat :=
  length (List.filter (fun a => negb (is_ok a)) (acks s)).

(** The tasks claimed and not yet acknowledged. *)
Definition holding (w : wstate) : option task :=
  match w with
  | WTry t => Some t
  | WFinally t _ => Some t
  | _ => None
  end.

Definition held (s : state) : list task := omap holding (workers s).

Definition task_of (b : string) (o : s3_object) : task := (b, Key o).

(** *** Invariants of a run *)

(** The queue's counter and the tasks in flight. *)
Record queue_inv (s : state) : Prop := {
  qi_start : main s = MList -> s = init;
  qi_perm : puts s ≡ₚ acked s ++ held s ++ Queue.items (queue s);
  qi_count : Queue.unfinished_tasks (queue s)
             = length (held s) + length (Queue.items (queue s))
}.

(** The one listing call of line 29 has been made with the event's Bucket
    and Prefix and no continuation token, and has returned [r]. *)
Definition listed (c : s3_client) (ev : event) (b : string) (r : list_response)
    (s : state) : Prop :=
  exists p, ev !! "Bucket" = Some (PyStr b) /\ ev !! "Prefix" = Some (PyStr p) /\
            list_objects_v2 c b p None = Ok r /\ list_calls s = [(b, p, None)].

(** Enumeration is over: exactly the keys of that one response were put, in
    order, and all of the pool has been started. *)
Definition enumerated (c : s3_client) (ev : event) (s : state) : Prop :=
  exists b r all, listed c ev b r s /\ Contents r = Some all /\
                  puts s = map (task_of b) all /\ length (workers s) = pool_size.

(** How far handler is, against what it has done. *)
Definition main_inv (c : s3_client) (ev : event) (s : state) : Prop :=
  match main s with
  | MList => s = init
  | MStart xs b r =>
      listed c ev b r s /\ puts s = [] /\ length (workers s) + length xs = pool_size
  | MContents b r =>
      listed c ev b r s /\ puts s = [] /\ length (workers s) = pool_size
  | MPut b objs =>
      exists r all, listed c ev b r s /\ Contents r = Some all /\
                    map (task_of b) all = puts s ++ map (task_of b) objs /\
                    length (workers s) = pool_size
  | MJoin => enumerated c ev s
  | MReturned v =>
      v = PyNone /\ Queue.unfinished_tasks (queue s) = 0 /\ enumerated c ev s
  | MRaised e =>
      puts s = [] /\ length (workers s) <= pool_size /\
      (list_calls s = [] \/ exists b p, list_calls s = [(b, p, None)])
  end.

(** What a worker's control state says about the history: a pending or
    escaped exception is the one delete_object raised for that worker, and
    every acknowledgement carries the outcome of the delete before it. *)
Record worker_inv (c : s3_client) (s : state) : Prop := {
  wi_finally : forall i t r, workers s !! i = Some (WFinally t r) ->
               r = delete_object c t.1 t.2 /\ EvDelete i t r ∈ history s;
  wi_dead : forall i e, workers s !! i = Some (WDead e) ->
            exists t, EvDelete i t (Some e) ∈ history s;
  wi_acks : forall t r, (t, r) ∈ acks s -> r = delete_object c t.1 t.2
}.

(** *** Scenarios *)

Definition key_name (i : nat) : string := "key" +:+ pretty i.

Definition objects (from n : nat) : list s3_object :=
  map (fun i => {| Key := key_name i |}) (seq from n).

Definition the_event : event :=
  {[ "Bucket" := PyStr "bucket"; "Prefix" := PyStr "logs/" ]}.

(** The same call with a poolSize field, as section 6 of the spec has it. *)
Definition event_pool4 : event := <[ "poolSize" := PyInt 4 ]> the_event.

Definition one_page (objs : list s3_object) : list_response :=
  {| Contents := Some objs; IsTruncated := false; NextContinuationToken := None |}.

(** A listing service with everything on one page. *)
Definition single_page_client (n : nat) (del : string -> string -> option exn) : s3_client :=
  {| list_objects_v2 := fun _ _ _ => Ok (one_page (objects 1 n));
     delete_object := del |}.

(** A listing service with 25 keys on pages of 10, 10 and 5. *)
Definition paged_listing (tok : option string) : result list_response :=
  match tok with
  | None => Ok {| Contents := Some (objects 1 10); IsTruncated := true;
                  NextContinuationToken := Some "page2" |}
  | Some "page2" => Ok {| Contents := Some (objects 11 10); IsTruncated := true;
                          NextContinuationToken := Some "page3" |}
  | Some "page3" => Ok (one_page (objects 21 5))
  | Some _ => Raise (ClientError "InvalidArgument")
  end.

Definition paged_client : s3_client :=
  {| list_objects_v2 := fun _ _ tok => paged_listing tok;
     delete_object := fun _ _ => None |}.

(** A listing service whose second page fails. *)
Definition second_page_fails_client : s3_client :=
  {| list_objects_v2 := fun _ _ tok =>
       match tok with
       | None => Ok {| Contents := Some (objects 1 10); IsTruncated := true;
                       NextContinuationToken := Some "page2" |}
       | Some _ => Raise (ClientError "InternalError")
       end;
     delete_object := fun _ _ => None |}.

(** A listing service whose first call fails. *)
Definition listing_fails_client : s3_client :=
  {| list_objects_v2 := fun _ _ _ => Raise (ClientError "AccessDenied");
     delete_object := fun _ _ => None |}.

Definition always_raises : string -> string -> option exn :=
  fun _ _ => Some (ClientError "AccessDenied").

Definition never_raises : string -> string -> option exn := fun _ _ => None.

(** handler and the eight workers take turns, [n] times over. *)
Definition round_robin (n : nat) : list tid :=
  concat (replicate n (TMain :: map TWorker (seq 0 pool_size))).

(** The Enumerator as section 4.1 of the specification words it: it follows
    continuation tokens until the listing service signals exhaustion.  The
    script has no such loop; this is what the claims on pagination compare
    it with. *)
Fixpoint spec_enumerate (fuel : nat) (c : s3_client) (b p : string)
    (tok : option string) : option (result (list string)) :=
  match fuel with
  | O => None
  | S fuel' =>
      match list_objects_v2 c b p tok with
      | Raise e => Some (Raise e)
      | Ok r =>
          let here := map Key (default [] (Contents r)) in
          match NextContinuationToken r with
          | None => Some (Ok here)
          | Some tok' =>
              match spec_enumerate fuel' c b p (Some tok') with
              | Some (Ok rest) => Some (Ok (here ++ rest))
              | other => other
              end
          end
      end
  end.

(** What Scenario A of the specification expects from the run operation. *)
Definition scenario_A_result : pyval :=
  PyDict [("submitted", PyInt 25); ("succeeded", PyInt 25);
          ("failed", PyInt 0); ("failures", PyList [])].

End S3Delete.

(** ** ebs-backup-worker/ebs-backup-worker.py: cleanup_snapshots *)

Module EbsBackup.

(** An entry of response['Snapshots'].  StartTime is an aware datetime; it
    is kept as microseconds since the epoch. *)
Record snapshot := { SnapshotId : string; StartTime : Z }.

Record snapshots_response := {
  Snapshots : list snapshot;
  NextToken : option string
}.

(** boto3.client('ec2'), as far as cleanup_snapshots uses it:
    [describe_snapshots vol tok] for the volume-id filter and the optional
    NextToken, [delete_snapshot id] with [Some e] when the call raises. *)
Record ec2_client := {
  describe_snapshots : string -> option string -> result snapshots_response;
  delete_snapshot : string -> option exn
}.

(** The dict {'removed': .., 'retained': ..}. *)
Record output := { removed : nat; retained : nat }.

(** What the function has done, oldest first: its remote calls with their
    outcome, and the snapshots it kept. *)
Inductive ebs_event :=
| Described (vol : string) (tok : option string) (r : option exn)
| Deleted (id : string) (r : option exn)
| Kept (id : string).

(** timedelta.days of (now - start): whole days, rounded down. *)
Definition timedelta_days (now start : Z) : Z := (now - start) / 86400000000.

(** 'NextToken' in response and response['NextToken'] *)
Definition next_token (response : snapshots_response) : option string :=
  match NextToken response with
  | Some tok => if decide (tok = "") then None else Some tok
  | None => None
  end.

(** Lines 27-34, the for loop over one page.  The third component is the
    exception that broke the loop, if one did. *)
Fixpoint scan_page (c : ec2_client) (now retention_days : Z)
    (snaps : list snapshot) (out : output) (h : list ebs_event)
    : output * list ebs_event * option exn :=
  match snaps with
  | [] => (out, h, None)
  | snap :: rest =>
      if (timedelta_days now (StartTime snap) >? retention_days)%Z then
        match delete_snapshot c (SnapshotId snap) with
        | Some e => (out, h ++ [Deleted (SnapshotId snap) (Some e)], Some e)
        | None =>
            scan_page c now retention_days rest
              {| removed := removed out + 1; retained := retained out |}
              (h ++ [Deleted (SnapshotId snap) None])
        end
      else
        scan_page c now retention_days rest
          {| removed := removed out; retained := retained out + 1 |}
          (h ++ [Kept (SnapshotId snap)])
  end.

(** Lines 26-41, the while loop; [fuel] bounds the pages followed, and
    [None] is a loop still running when it is used up. *)
Fixpoint cleanup_loop (fuel : nat) (c : ec2_client) (now : Z) (vol_id : string)
    (retention_days : Z) (response : snapshots_response)
    (out : output) (h : list ebs_event)
    : option (output * list ebs_event * option exn) :=
  match fuel with
  | O => None
  | S fuel' =>
      match scan_page c now retention_days (Snapshots response) out h with
      | (out', h', Some e) => Some (out', h', Some e)
      | (out', h', None) =>
          match next_token response with
          | Some tok =>
              match describe_snapshots c vol_id (Some tok) with
              | Raise e =>
                  Some (out', h' ++ [Described vol_id (Some tok) (Some e)], Some e)
              | Ok response' =>
                  cleanup_loop fuel' c now vol_id retention_days response' out'
                    (h' ++ [Described vol_id (Some tok) None])
              end
          | None => Some (out', h', None)
          end
      end
  end.

(** cleanup_snapshots(vol_id, retention_days) at time [now].  The first
    describe_snapshots is outside the try; what the loop raises is dropped
    by "except: pass" and output is returned as it stands. *)
Definition cleanup_snapshots (fuel : nat) (c : ec2_client) (now : Z)
    (vol_id : string) (retention_days : Z)
    : option (result output * list ebs_event) :=
  match describe_snapshots c vol_id None with
  | Raise e => Some (Raise e, [Described vol_id None (Some e)])
  | Ok response =>
      match cleanup_loop fuel c now vol_id retention_days response
              {| removed := 0; retained := 0 |} [Described vol_id None None] with
      | None => None
      | Some (out, h, _) => Some (Ok out, h)
      end
  end.

(** The listing ends (with a page without token, or with a failure) after at
    most [n] further pages. *)
Fixpoint pages_left (c : ec2_client) (vol_id : string) (n : nat)
    (response : snapshots_response) : Prop :=
  match next_token response with
  | None => True
  | Some tok =>
      match describe_snapshots c vol_id (Some tok) with
      | Raise _ => True
      | Ok response' =>
          match n with
          | O => False
          | S n' => pages_left c vol_id n' response'
          end
      end
  end.

Definition is_failure (ev : ebs_event) : bool :=
  match ev with
  | Described _ _ (Some _) | Deleted _ (Some _) => true
  | _ => false
  end.

Definition is_deleted (ev : ebs_event) : bool :=
  match ev with Deleted _ None => true | _ => false end.

Definition is_kept (ev : ebs_event) : bool :=
  match ev with Kept _ => true | _ => false end.

Definition count (f : ebs_event -> bool) (h : list ebs_event) : nat :=
  length (List.filter f h).

(** *** The counters follow the history *)

Record tally (out : output) (h : list ebs_event) : Prop := {
  tally_removed : removed out = count is_deleted h;
  tally_retained : retained out = count is_kept h
}.

(** No call has failed so far. *)
Definition clean (h : list ebs_event) : Prop :=
  Forall (fun ev => is_failure ev = false) h.

(** A failed call, if there is one, is the last thing that happened. *)
Definition failure_last (h : list ebs_event) : Prop :=
  forall ev, ev ∈ h -> is_failure ev = true -> last h = Some ev.

(** *** Scenario: the second of three old snapshots cannot be deleted *)

Definition day : Z := 86400000000.

Definition old_snapshots : list snapshot :=
  [ {| SnapshotId := "snap-1"; StartTime := 0 |};
    {| SnapshotId := "snap-2"; StartTime := 0 |};
    {| SnapshotId := "snap-3"; StartTime := 0 |} ].

Definition in_use_client : ec2_client :=
  {| describe_snapshots := fun _ _ =>
       Ok {| Snapshots := old_snapshots; NextToken := None |};
     delete_snapshot := fun id =>
       if decide (id = "snap-2") then Some (ClientError "InvalidSnapshot.InUse")
       else None |}.

(** A volume with a single old snapshot, deleted without trouble. *)
Definition quiet_client : ec2_client :=
  {| describe_snapshots := fun _ _ =>
       Ok {| Snapshots := take 1 old_snapshots; NextToken := None |};
     delete_snapshot := fun _ => None |}.

End EbsBackup.

(** ** boto3-security-group-audit/sg-audit.py *)

Module SgAudit.

(** *** Responses, with the keys the script reads *)

Record security_group := {
  GroupId : string;
  GroupName : string;
  Resources : list string          (* sg['Resources'] = {} *)
}.

Record group_identifier := { gi_GroupId : string }.

Record instance := { SecurityGroups : list group_identifier }.

Record reservation := { Instances : list instance }.

Record instances_page := {
  Reservations : list reservation;
  NextToken : option string
}.

Record load_balancer := { lb_SecurityGroups : list string }.

Record elb_page := {
  LoadBalancerDescriptions : list load_balancer;
  elb_NextMarker : option string
}.

Record elbv2_page := {
  LoadBalancers : list load_balancer;
  elbv2_NextMarker : option string
}.

Record file_system := { FileSystemId : string }.

Record efs_page := {
  FileSystems : list file_system;
  efs_NextMarker : option string
}.

Record mount_target := { MountTargetId : string }.

Record vpc_security_group := { VpcSecurityGroupId : string }.

Record db_instance := { VpcSecurityGroups : list vpc_security_group }.

Record rds_page := {
  DBInstances : list db_instance;
  rds_NextMarker : option string
}.

Record cache_security_group := { SecurityGroupId : string }.

Record cache_cluster := { cc_SecurityGroups : list cache_security_group }.

Record elasticache_page := {
  CacheClusters : list cache_cluster;
  ec_NextMarker : option string
}.

Record vpc_config := { SecurityGroupIds : list string }.

Record lambda_function := { VpcConfig : option vpc_config }.

Record lambda_page := {
  Functions : list lambda_function;
  lambda_NextMarker : option string
}.

Record redshift_cluster := { rs_VpcSecurityGroups : list vpc_security_group }.

Record redshift_page := {
  Clusters : list redshift_cluster;
  rs_NextMarker : option string
}.

(** The boto3 clients of the script, one field per operation it calls. *)
Record aws := {
  ec2_describe_security_groups : string -> result (list security_group);
  ec2_describe_instances : option string -> result instances_page;
  elb_describe_load_balancers : option string -> result elb_page;
  elbv2_describe_load_balancers : option string -> result elbv2_page;
  efs_describe_file_systems : option string -> result efs_page;
  efs_describe_mount_targets : string -> result (list mount_target);
  efs_describe_mount_target_security_groups : string -> result (list string);
  rds_describe_db_instances : option string -> result rds_page;
  elasticache_describe_cache_clusters : option string -> result elasticache_page;
  lambda_list_functions : option string -> result lambda_page;
  redshift_describe_clusters : option string -> result redshift_page
}.

(** *** Effects *)

(** Remote operations.  The last one is the EC2 operation that removes a
    security group; the script has no call to it. *)
Inductive api_call :=
| Ec2DescribeSecurityGroups (vpc_id : string)
| Ec2DescribeInstances (token : option string)
| ElbDescribeLoadBalancers (marker : option string)
| Elbv2DescribeLoadBalancers (marker : option string)
| EfsDescribeFileSystems (marker : option string)
| EfsDescribeMountTargets (file_system_id : string)
| EfsDescribeMountTargetSecurityGroups (mount_target_id : string)
| RdsDescribeDBInstances (marker : option string)
| ElasticacheDescribeCacheClusters (marker : option string)
| LambdaListFunctions (marker : option string)
| RedshiftDescribeClusters (marker : option string)
| Ec2DeleteSecurityGroup (group_id : string).

Definition read_only (c : api_call) : bool :=
  match c with
  | Ec2DeleteSecurityGroup _ => false
  | _ => true
  end.

Abbreviation sg_list := (gmap string security_group).

(** What a run does, oldest first: remote calls, calls of logger.warn, and
    what main prints. *)
Inductive effect :=
| Call (c : api_call)
| Warn (group_id service : string)
| PrintGroups (groups : sg_list)
| PrintException (e : exn).

Inductive outcome (A : Type) :=
| Val (a : A)
| Exc (e : exn)
| Loops.                 (* a while loop has outrun the fuel *)

Arguments Val {A} a.

Arguments Exc {A} e.

Arguments Loops {A}.

(** Computations that log their effects and may raise. *)
Definition M (A : Type) : Type := list effect -> outcome A * list effect.

#[export] Instance M_ret : MRet M := fun A a log => (Val a, log).

#[export] Instance M_bind : MBind M := fun A B f m log =>
  match m log with
  | (Val a, log') => f a log'
  | (Exc e, log') => (Exc e, log')
  | (Loops, log') => (Loops, log')
  end.

Definition call {A} (c : api_call) (reply : result A) : M A := fun log =>
  (match reply with Ok a => Val a | Raise e => Exc e end, log ++ [Call c]).

Definition warn (group_id service : string) : M unit := fun log =>
  (Val tt, log ++ [Warn group_id service]).

Definition raise {A} (e : exn) : M A := fun log => (Exc e, log).

Definition loops {A} : M A := fun log => (Loops, log).

(** 'NextToken' in response and response['NextToken'], and the same for
    'NextMarker'. *)
Definition truthy (tok : option string) : option string :=
  match tok with
  | Some t => if decide (t = "") then None else Some t
  | None => None
  end.

(** for x in xs: body, threading sg_list. *)
Fixpoint for_each {A} (xs : list A) (body : A -> sg_list -> M sg_list)
    (groups : sg_list) : M sg_list :=
  match xs with
  | [] => mret groups
  | x :: rest => groups' ← body x groups; for_each rest body groups'
  end.

(** if g in sg_list: sg_list.pop(g); logger.warn(...) *)
Definition discard (service : string) (g : string) (groups : sg_list) : M sg_list :=
  match groups !! g with
  | Some _ => _ ← warn g service; mret (delete g groups)
  | None => mret groups
  end.

(** while True: <body>; if the page names a next one, fetch it, else
    break. *)
Fixpoint paginate {P} (fuel : nat) (fetch : option string -> M P)
    (next : P -> option string) (body : P -> sg_list -> M sg_list)
    (page : P) (groups : sg_list) : M sg_list :=
  match fuel with
  | O => loops
  | S fuel' =>
      groups' ← body page groups;
      match truthy (next page) with
      | Some tok =>
          page' ← fetch (Some tok);
          paginate fuel' fetch next body page' groups'
      | None => mret groups'
      end
  end.

(** *** The script *)

Definition get_security_group_list (a : aws) (vpc_id : string) : M sg_list :=
  response ← call (Ec2DescribeSecurityGroups vpc_id) (ec2_describe_security_groups a vpc_id);
  mret (foldl (fun groups sg =>
                 <[GroupId sg := {| GroupId := GroupId sg; GroupName := GroupName sg;
                                    Resources := [] |}]> groups)
              ∅ response).

Definition find_orphans (fuel : nat) (a : aws) (vpc_id : string) : M sg_list :=
  groups ← get_security_group_list a vpc_id;
  (* EC2 *)
  let fetch := fun tok => call (Ec2DescribeInstances tok) (ec2_describe_instances a tok) in
  response ← fetch None;
  groups ← paginate fuel fetch NextToken
    (fun page => for_each (Reservations page) (fun reservation =>
       for_each (Instances reservation) (fun inst =>
         for_each (SecurityGroups inst) (fun sg => discard "EC2" (gi_GroupId sg)))))
    response groups;
  (* ELB *)
  let fetch := fun m => call (ElbDescribeLoadBalancers m) (elb_describe_load_balancers a m) in
  response ← fetch None;
  groups ← paginate fuel fetch elb_NextMarker
    (fun page => for_each (LoadBalancerDescriptions page) (fun lb =>
       for_each (lb_SecurityGroups lb) (discard "ELBv1")))
    response groups;
  let fetch := fun m => call (Elbv2DescribeLoadBalancers m) (elbv2_describe_load_balancers a m) in
  response ← fetch None;
  groups ← paginate fuel fetch elbv2_NextMarker
    (fun page => for_each (LoadBalancers page) (fun lb =>
       for_each (lb_SecurityGroups lb) (discard "ELBv2")))
    response groups;
  (* EFS *)
  let fetch := fun m => call (EfsDescribeFileSystems m) (efs_describe_file_systems a m) in
  response ← fetch None;
  groups ← paginate fuel fetch efs_NextMarker
    (fun page => for_each (FileSystems page) (fun efs groups =>
       mount_targets ← call (EfsDescribeMountTargets (FileSystemId efs))
                            (efs_describe_mount_targets a (FileSystemId efs));
       for_each mount_targets (fun target groups =>
         security_groups ←
           call (EfsDescribeMountTargetSecurityGroups (MountTargetId target))
                (efs_describe_mount_target_security_groups a (MountTargetId target));
         for_each security_groups (discard "EFS") groups) groups))
    response groups;
  (* RDS *)
  let fetch := fun m => call (RdsDescribeDBInstances m) (rds_describe_db_instances a m) in
  response ← fetch None;
  groups ← paginate fuel fetch rds_NextMarker
    (fun page => for_each (DBInstances page) (fun db_inst =>
       for_each (VpcSecurityGroups db_inst) (fun sg =>
         discard "RDS" (VpcSecurityGroupId sg))))
    response groups;
  (* Elasticache *)
  let fetch := fun m =>
    call (ElasticacheDescribeCacheClusters m) (elasticache_describe_cache_clusters a m) in
  response ← fetch None;
  groups ← paginate fuel fetch ec_NextMarker
    (fun page => for_each (CacheClusters page) (fun cluster =>
       for_each (cc_SecurityGroups cluster) (fun sg =>
         discard "ElastiCache" (SecurityGroupId sg))))
    response groups;
  (* Lambda *)
  let fetch := fun m => call (LambdaListFunctions m) (lambda_list_functions a m) in
  response ← fetch None;
  groups ← paginate fuel fetch lambda_NextMarker
    (fun page => for_each (Functions page) (fun func groups =>
       match VpcConfig func with
       | Some cfg => for_each (SecurityGroupIds cfg) (discard "Lambda") groups
       | None => mret groups
       end))
    response groups;
  (* Redshift *)
  let fetch := fun m => call (RedshiftDescribeClusters m) (redshift_describe_clusters a m) in
  response ← fetch None;
  paginate fuel fetch rs_NextMarker
    (fun page => for_each (Clusters page) (fun cluster =>
       for_each (rs_VpcSecurityGroups cluster) (fun sg =>
         discard "RedShift" (VpcSecurityGroupId sg))))
    response groups.

(** remove_orphans: "Remove all orphaned groups", whose body is
    return find_orphans(vpc_id). *)
Definition remove_orphans (fuel : nat) (a : aws) (vpc_id : string) : M sg_list :=
  find_orphans fuel a vpc_id.

(** The parsed command line, as main reads it. *)
Record args := {
  vpc_id : option string;
  verbose : bool;
  profile : string;
  delete_flag : bool;      (* --delete *)
  display : bool           (* --display *)
}.

(** except Exception as e: print("Exception: %s" % (e)); quit() *)
Definition catch_print (m : M unit) : M unit := fun log =>
  match m log with
  | (Exc e, log') => (Val tt, log' ++ [PrintException e])
  | other => other
  end.

Definition print_groups (groups : sg_list) : M unit := fun log =>
  (Val tt, log ++ [PrintGroups groups]).

(** main, from the parsed arguments on.  Choosing the profile and the
    logger level makes no remote call and is left out. *)
Definition main (fuel : nat) (a : aws) (ar : args) : M unit :=
  catch_print (
    match truthy (vpc_id ar) with
    | None => raise (PyException "vpc-id required")
    | Some vpc =>
        if delete_flag ar
        then mbind (M := M) (fun _ : sg_list => mret tt) (remove_orphans fuel a vpc)
        else mbind (M := M) print_groups (find_orphans fuel a vpc)
    end).

(** The remote calls among the effects. *)
Definition calls_of (log : list effect) : list api_call :=
  omap (fun eff => match eff with Call c => Some c | _ => None end) log.

(** *** Every remote call of the script is a read *)

Definition harmless (eff : effect) : Prop :=
  match eff with
  | Call c => read_only c = true
  | _ => True
  end.

(** [m] only adds to the log, and adds no call that changes anything. *)
Definition reads_only {A} (m : M A) : Prop :=
  forall log, exists more, (m log).2 = log ++ more /\ Forall harmless more.

Definition with_delete (b : bool) (ar : args) : args :=
  {| vpc_id := vpc_id ar; verbose := verbose ar; profile := profile ar;
     delete_flag := b; display := display ar |}.

(** *** A small account: two groups, one of them on an instance *)

Definition empty_page {P} (mk : option string -> P) : option string -> result P :=
  fun _ => Ok (mk None).

Definition small_account : aws :=
  {| ec2_describe_security_groups := fun _ =>
       Ok [ {| GroupId := "sg-1"; GroupName := "web"; Resources := [] |};
            {| GroupId := "sg-2"; GroupName := "old"; Resources := [] |} ];
     ec2_describe_instances := fun tok =>
       match tok with
       | None => Ok {| Reservations := []; NextToken := Some "t1" |}
       | Some _ =>
           Ok {| Reservations :=
                   [ {| Instances :=
                          [ {| SecurityGroups := [ {| gi_GroupId := "sg-1" |} ] |} ] |} ];
                 NextToken := None |}
       end;
     elb_describe_load_balancers := empty_page (Build_elb_page []);
     elbv2_describe_load_balancers := empty_page (Build_elbv2_page []);
     efs_describe_file_systems := empty_page (Build_efs_page []);
     efs_describe_mount_targets := fun _ => Ok [];
     efs_describe_mount_target_security_groups := fun _ => Ok [];
     rds_describe_db_instances := empty_page (Build_rds_page []);
     elasticache_describe_cache_clusters := empty_page (Build_elasticache_page []);
     lambda_list_functions := empty_page (Build_lambda_page []);
     redshift_describe_clusters := empty_page (Build_redshift_page []) |}.

End SgAudit.

(** ** The threaded delete: more on its runs *)

Module S3Runs.
Import S3Delete.

Definition get_of (e : hevent) : option task :=
  match e with EvGet _ t => Some t | _ => None end.

Definition delete_of (e : hevent) : option (task * option exn) :=
  match e with EvDelete _ t r => Some (t, r) | _ => None end.

(** The tasks handed out by queue.get(), in order. *)
Definition gets (s : state) : list task := omap get_of (history s).

(** The delete_object calls made, each with its outcome. *)
Definition deletes (s : state) : list (task * option exn) :=
  omap delete_of (history s).

(** The tasks claimed whose delete_object is still to come. *)
Definition trying (w : wstate) : option task :=
  match w with WTry t => Some t | _ => None end.

(** handler has returned or raised. *)
Definition finished (s : state) : bool :=
  match main s with
  | MReturned _ | MRaised _ => true
  | _ => false
  end.

Definition dead (w : wstate) : bool :=
  match w with WDead _ => true | _ => false end.

(** Steps a worker still owes for the task it holds. *)
Definition worker_weight (w : wstate) : nat :=
  match w with
  | WTry _ => 2
  | WFinally _ _ => 1
  | _ => 0
  end.

(** Steps handler still has before it, counting four for a key to put (the
    put itself and the three worker steps it causes). *)
Definition main_weight (c : s3_client) (ev : event) (m : mstate) : nat :=
  let put_weight := fun objs : list s3_object => 4 * length objs + 2 in
  let contents_weight := fun r : list_response =>
    S (match Contents r with Some objs => put_weight objs | None => 0 end) in
  let start_weight := fun (xs : list nat) r => length xs + S (contents_weight r) in
  match m with
  | MList =>
      S (match ev !! "Bucket", ev !! "Prefix" with
         | Some (PyStr b), Some (PyStr p) =>
             match list_objects_v2 c b p None with
             | Ok r => start_weight (seq 0 pool_size) r
             | Raise _ => 0
             end
         | _, _ => 0
         end)
  | MStart xs _ r => start_weight xs r
  | MContents _ r => contents_weight r
  | MPut _ objs => put_weight objs
  | MJoin => 1
  | MReturned _ | MRaised _ => 0
  end.

(** A bound on the steps a run can still take. *)
Definition weight (c : s3_client) (ev : event) (s : state) : nat :=
  main_weight c ev (main s) + 3 * length (Queue.items (queue s))
  + sum_list_with worker_weight (workers s).

(** [Path c ev n s s']: the threads can take [n] steps from [s] to [s']. *)
Inductive Path (c : s3_client) (ev : event) : nat -> state -> state -> Prop :=
| Path_nil s : Path c ev 0 s s
| Path_step n s t s1 s' :
    step c ev t s = Some s1 -> Path c ev n s1 s' -> Path c ev (S n) s s'.

(** The steps taken by a run under a schedule (the turns of threads that
    could not move do not count). *)
Fixpoint run_steps (c : s3_client) (ev : event) (sched : list tid) (s : state) : nat :=
  match sched with
  | [] => 0
  | t :: rest =>
      match step c ev t s with
      | Some s' => S (run_steps c ev rest s')
      | None => run_steps c ev rest s
      end
  end.

(** Every task handed out has had its delete_object call, or is about to,
    and the outcome in the history is the one the client gave. *)
Record delete_inv (c : s3_client) (s : state) : Prop := {
  di_perm : gets s ≡ₚ (deletes s).*1 ++ omap trying (workers s);
  di_outcome : forall t r, (t, r) ∈ deletes s -> r = delete_object c t.1 t.2
}.

End S3Runs.

(** ** ebs-backup-worker/ebs-backup-worker.py: the functions around
    cleanup_snapshots *)

Module EbsWorker.
Import EbsBackup.

(** An entry of volume['Tags']. *)
Record tag := { tag_Key : string; tag_Value : string }.

(** A volume as describe_volumes gives it; EC2 leaves 'Tags' out for a
    volume without tags. *)
Record volume := { VolumeId : string; Tags : option (list tag) }.

(** The two Filters the script uses. *)
Inductive volume_filter :=
| ByVolumeId (vol_id : string)          (* Name: volume-id *)
| ByTagKey (keys : list string).        (* Name: tag-key *)

(** The EC2 client and resource, with the operations of [ec2_client] for
    snapshots. *)
Record backup_client := {
  snapshots_api : ec2_client;
  describe_volumes : volume_filter -> result (list volume);
  create_snapshot : string -> string -> result string;   (* gives snap['SnapshotId'] *)
  create_tags : string -> list tag -> option exn
}.

(** The builtins whose full definition is Python's: str.lower and int. *)
Record python := {
  str_lower : string -> string;
  int_of_str : string -> option Z       (* None: int() raises ValueError *)
}.

(** s.startswith(sub), on the characters. *)
Fixpoint starts_with (sub s : string) : bool :=
  match sub, s with
  | EmptyString, _ => true
  | String _ _, EmptyString => false
  | String a sub', String b s' => if Ascii.eqb a b then starts_with sub' s' else false
  end.

Fixpoint str_find_from (sub s : string) (i : Z) : Z :=
  if starts_with sub s then i
  else match s with
       | EmptyString => -1
       | String _ s' => str_find_from sub s' (i + 1)
       end.

(** s.find(sub): the lowest index at which sub occurs in s, or -1. *)
Definition str_find (sub s : string) : Z := str_find_from sub s 0.

(** What an exception of these functions can be: one of [exn], or the
    IndexError of ['Volumes'][0]. *)
Inductive error :=
| Exn (e : exn)
| IndexError (msg : string).

Inductive ended (A : Type) :=
| Returned (a : A)
| Raised (e : error)
| Loops.                   (* cleanup_snapshots has outrun the fuel *)
Arguments Returned {A} a.
Arguments Raised {A} e.
Arguments Loops {A}.

(** What has been done, oldest first. *)
Inductive backup_event :=
| DescribedVolumes (f : volume_filter) (r : option exn)
| CreatedSnapshot (vol_id : string) (r : result string)
| CreatedTags (snapshot_id : string) (tags : list tag) (r : option exn)
| Cleanup (vol_id : string) (e : ebs_event).

(** Computations over the history. *)
Definition W (A : Type) : Type := list backup_event -> ended A * list backup_event.

#[export] Instance W_ret : MRet W := fun A a h => (Returned a, h).

#[export] Instance W_bind : MBind W := fun A B f m h =>
  match m h with
  | (Returned a, h') => f a h'
  | (Raised e, h') => (Raised e, h')
  | (Loops, h') => (Loops, h')
  end.

Definition throw {A} (e : error) : W A := fun h => (Raised e, h).

Definition call_describe_volumes (c : backup_client) (f : volume_filter)
    : W (list volume) := fun h =>
  match describe_volumes c f with
  | Ok vs => (Returned vs, h ++ [DescribedVolumes f None])
  | Raise e => (Raised (Exn e), h ++ [DescribedVolumes f (Some e)])
  end.

Definition call_create_snapshot (c : backup_client) (vol_id description : string)
    : W string := fun h =>
  let r := create_snapshot c vol_id description in
  (match r with Ok id => Returned id | Raise e => Raised (Exn e) end,
   h ++ [CreatedSnapshot vol_id r]).

Definition call_create_tags (c : backup_client) (snapshot_id : string)
    (tags : list tag) : W unit := fun h =>
  let r := create_tags c snapshot_id tags in
  (match r with None => Returned tt | Some e => Raised (Exn e) end,
   h ++ [CreatedTags snapshot_id tags r]).

(** cleanup_snapshots(vol_id, retention_days), its events added to the
    history.  [clock] is what datetime.now gives, as a function of how much
    has happened before. *)
Definition call_cleanup_snapshots (fuel : nat) (c : backup_client) (clock : nat -> Z)
    (vol_id : string) (retention_days : Z) : W output := fun h =>
  match cleanup_snapshots fuel (snapshots_api c) (clock (length h)) vol_id
          retention_days with
  | None => (Loops, h)
  | Some (Ok out, evs) => (Returned out, h ++ (Cleanup vol_id <$> evs))
  | Some (Raise e, evs) => (Raised (Exn e), h ++ (Cleanup vol_id <$> evs))
  end.

(** volume['Tags'] *)
Definition tags_of (v : volume) : W (list tag) :=
  match Tags v with
  | Some tags => mret tags
  | None => throw (Exn (KeyError "Tags"))
  end.

(** tag['Key'].lower().find('backup') != 0 *)
Definition copied (py : python) (t : tag) : bool :=
  negb (str_find "backup" (str_lower py (tag_Key t)) =? 0)%Z.

(** The for loop of snapshot_single over the tags (lines 65-69): the
    retention read so far and the tags to copy. *)
Fixpoint scan_tags (py : python) (tags : list tag) (retention_days : option Z)
    (new_tags : list tag) : result (option Z * list tag) :=
  match tags with
  | [] => Ok (retention_days, new_tags)
  | t :: rest =>
      let step := fun retention_days =>
        scan_tags py rest retention_days
          (if copied py t then new_tags ++ [t] else new_tags) in
      if decide (tag_Key t = "BackupRetentionDays") then
        match int_of_str py (tag_Value t) with
        | Some d => step (Some d)
        | None => Raise (ValueError (tag_Value t))
        end
      else step retention_days
  end.

(** The for loop of cleanup_all over the tags (lines 104-106). *)
Fixpoint scan_retention (py : python) (tags : list tag) (retention_days : Z)
    : result Z :=
  match tags with
  | [] => Ok retention_days
  | t :: rest =>
      if decide (tag_Key t = "BackupRetentionDays") then
        match int_of_str py (tag_Value t) with
        | Some d => scan_retention py rest d
        | None => Raise (ValueError (tag_Value t))
        end
      else scan_retention py rest retention_days
  end.

Definition lift {A} (r : result A) : W A :=
  match r with
  | Ok a => mret a
  | Raise e => throw (Exn e)
  end.

(** The dict snapshot_single returns. *)
Record single_output := { snapshot : string; cleanup : option output }.

Definition DEFAULT_RETENTION_PERIOD : Z := 21.

Definition snapshot_description : string :=
  "Auto-generated snapshot via lambda:ebs-backup-worker".

(** if retention_days and retention_days > 0, with False as [None]. *)
Definition wants_cleanup (retention_days : option Z) : option Z :=
  match retention_days with
  | Some d => if (d >? 0)%Z then Some d else None
  | None => None
  end.

Definition snapshot_single (py : python) (fuel : nat) (c : backup_client)
    (clock : nat -> Z) (vol_id : string) : W single_output :=
  volumes ← call_describe_volumes c (ByVolumeId vol_id);
  match volumes with
  | [] => throw (IndexError "list index out of range")
  | vol :: _ =>
      snap ← call_create_snapshot c (VolumeId vol) snapshot_description;
      tags ← tags_of vol;
      scanned ← lift (scan_tags py tags None []);
      _ ← call_create_tags c snap scanned.2;
      match wants_cleanup scanned.1 with
      | Some d =>
          out ← call_cleanup_snapshots fuel c clock vol_id d;
          mret {| snapshot := snap; cleanup := Some out |}
      | None => mret {| snapshot := snap; cleanup := None |}
      end
  end.

Definition backup_volumes : volume_filter := ByTagKey ["backup"; "Backup"].

(** for volume in volumes: output[volume['VolumeId']] = body(volume) *)
Fixpoint for_volumes {A} (volumes : list volume) (body : volume -> W A)
    (output : gmap string A) : W (gmap string A) :=
  match volumes with
  | [] => mret output
  | vol :: rest =>
      a ← body vol;
      for_volumes rest body (<[VolumeId vol := a]> output)
  end.

Definition snapshot_all (py : python) (fuel : nat) (c : backup_client)
    (clock : nat -> Z) : W (gmap string single_output) :=
  volumes ← call_describe_volumes c backup_volumes;
  for_volumes volumes (fun vol => snapshot_single py fuel c clock (VolumeId vol)) ∅.

(** The body of the loop of cleanup_all: the dict stored for one volume,
    {} as [None] and {'cleanup': out} as [Some out]. *)
Definition cleanup_volume (py : python) (fuel : nat) (c : backup_client)
    (clock : nat -> Z) (vol : volume) : W (option output) :=
  tags ← tags_of vol;
  retention_days ← lift (scan_retention py tags DEFAULT_RETENTION_PERIOD);
  match wants_cleanup (Some retention_days) with
  | Some d =>
      out ← call_cleanup_snapshots fuel c clock (VolumeId vol) d;
      mret (Some out)
  | None => mret None
  end.

Definition cleanup_all (py : python) (fuel : nat) (c : backup_client)
    (clock : nat -> Z) : W (gmap string (option output)) :=
  volumes ← call_describe_volumes c backup_volumes;
  for_volumes volumes (cleanup_volume py fuel c clock) ∅.





(** The test of line 29: time_diff.days > retention_days. *)
Definition expired (now retention_days : Z) (snap : EbsBackup.snapshot) : bool :=
  (timedelta_days now (StartTime snap) >? retention_days)%Z.

(** Events that only read or remove snapshots. *)
Definition cleaning_only (ev : backup_event) : Prop :=
  match ev with
  | DescribedVolumes _ _ | Cleanup _ _ => True
  | CreatedSnapshot _ _ | CreatedTags _ _ _ => False
  end.

(** [m] adds events to the history, all of them in [P]. *)
Definition adds {A} (P : backup_event -> Prop) (m : W A) : Prop :=
  forall h, exists more, (m h).2 = h ++ more /\ Forall P more.

(** An event that creates no snapshot, or creates one of the first volume
    that describe_volumes gives for the id [vol_id]. *)
Definition snapshot_of (c : backup_client) (vol_id : string) (ev : backup_event)
    : Prop :=
  match ev with
  | CreatedSnapshot v _ =>
      exists vol vs,
        describe_volumes c (ByVolumeId vol_id) = Ok (vol :: vs) /\ v = VolumeId vol
  | _ => True
  end.

Definition snapshot_of_listed (c : backup_client) (vols : list volume)
    (ev : backup_event) : Prop :=
  match ev with
  | CreatedSnapshot _ _ => exists vol, vol ∈ vols /\ snapshot_of c (VolumeId vol) ev
  | _ => True
  end.

(** *** A concrete Python and a small account *)

Definition ascii_lower (a : Ascii.ascii) : Ascii.ascii :=
  let n := Ascii.nat_of_ascii a in
  if (65 <=? n) && (n <=? 90) then Ascii.ascii_of_nat (n + 32) else a.

Fixpoint lower_string (s : string) : string :=
  match s with
  | EmptyString => EmptyString
  | String a s' => String (ascii_lower a) (lower_string s')
  end.

(** int() on the few literals the scenarios use; str.lower on ASCII. *)
Definition ascii_python : python :=
  {| str_lower := lower_string;
     int_of_str := fun s =>
       if String.eqb s "7" then Some 7%Z
       else if String.eqb s "21" then Some 21%Z
       else if String.eqb s "0" then Some 0%Z
       else None |}.

Definition volume_1 : volume :=
  {| VolumeId := "vol-1";
     Tags := Some [ {| tag_Key := "Name"; tag_Value := "data" |};
                    {| tag_Key := "Backup"; tag_Value := "true" |};
                    {| tag_Key := "BackupRetentionDays"; tag_Value := "7" |} ] |}.

Definition one_volume_client : backup_client :=
  {| snapshots_api := in_use_client;
     describe_volumes := fun _ => Ok [volume_1];
     create_snapshot := fun _ _ => Ok "snap-new";
     create_tags := fun _ _ => None |}.

End EbsWorker.

(** ** The security-group audit: what find_orphans keeps and removes *)

Module SgOrphans.
Import SgAudit.

(** The calls of logger.warn among the effects. *)
Definition is_warn (eff : effect) : bool :=
  match eff with Warn _ _ => true | _ => false end.

Definition warns (log : list effect) : nat := length (List.filter is_warn log).

(** sg['Resources'] = {} on a group of the response. *)
Definition listed_group (sg : security_group) : security_group :=
  {| GroupId := GroupId sg; GroupName := GroupName sg; Resources := [] |}.

(** When [m] returns, what it returns is part of [groups]. *)
Definition shrinks (groups : sg_list) (m : M sg_list) : Prop :=
  forall log groups', (m log).1 = Val groups' -> groups' ⊆ groups.

(** When [m] returns, every group gone from [groups] has had one call of
    logger.warn. *)
Definition accounted (groups : sg_list) (m : M sg_list) : Prop :=
  forall log groups' log', m log = (Val groups', log') ->
    size groups' + warns log' = size groups + warns log.

(** When [m] returns, group [g] is not in what it returns. *)
Definition removes (g : string) (m : M sg_list) : Prop :=
  forall log groups', (m log).1 = Val groups' -> groups' !! g = None.

(** Remote calls and warnings: what find_orphans does. *)
Definition silent (eff : effect) : Prop :=
  match eff with
  | Call _ | Warn _ _ => True
  | PrintGroups _ | PrintException _ => False
  end.

Definition failure {A} (r : result A) : option exn :=
  match r with
  | Ok _ => None
  | Raise e => Some e
  end.

(** The exception the account answers a call with, when it does. *)
Definition raised_by (a : aws) (c : api_call) : option exn :=
  match c with
  | Ec2DescribeSecurityGroups v => failure (ec2_describe_security_groups a v)
  | Ec2DescribeInstances tok => failure (ec2_describe_instances a tok)
  | ElbDescribeLoadBalancers m => failure (elb_describe_load_balancers a m)
  | Elbv2DescribeLoadBalancers m => failure (elbv2_describe_load_balancers a m)
  | EfsDescribeFileSystems m => failure (efs_describe_file_systems a m)
  | EfsDescribeMountTargets fs => failure (efs_describe_mount_targets a fs)
  | EfsDescribeMountTargetSecurityGroups t =>
      failure (efs_describe_mount_target_security_groups a t)
  | RdsDescribeDBInstances m => failure (rds_describe_db_instances a m)
  | ElasticacheDescribeCacheClusters m =>
      failure (elasticache_describe_cache_clusters a m)
  | LambdaListFunctions m => failure (lambda_list_functions a m)
  | RedshiftDescribeClusters m => failure (redshift_describe_clusters a m)
  | Ec2DeleteSecurityGroup _ => None
  end.

(** [m] only adds calls and warnings to the log, and when it raises, the
    last thing it did is a remote call, and what it raises is the exception
    of that call. *)
Definition fails_at_call {A} (a : aws) (m : M A) : Prop :=
  forall log, exists more,
    (m log).2 = log ++ more /\ Forall silent more /\
    forall e, (m log).1 = Exc e ->
      exists before c, more = before ++ [Call c] /\ raised_by a c = Some e.

(** The pages a paginated listing goes through within [fuel] rounds, from a
    first page on; [reply] is the listing operation. *)
Inductive Visited {P} (reply : option string -> result P) (next : P -> option string)
    : nat -> P -> P -> Prop :=
| Visited_here fuel page : Visited reply next (S fuel) page page
| Visited_next fuel page tok page' p :
    truthy (next page) = Some tok -> reply (Some tok) = Ok page' ->
    Visited reply next fuel page' p ->
    Visited reply next (S fuel) page p.

(** The small account, with a load-balancer listing that is refused. *)
Definition denied_account : aws :=
  {| ec2_describe_security_groups := ec2_describe_security_groups small_account;
     ec2_describe_instances := ec2_describe_instances small_account;
     elb_describe_load_balancers := fun _ => Raise (ClientError "AccessDenied");
     elbv2_describe_load_balancers := elbv2_describe_load_balancers small_account;
     efs_describe_file_systems := efs_describe_file_systems small_account;
     efs_describe_mount_targets := efs_describe_mount_targets small_account;
     efs_describe_mount_target_security_groups :=
       efs_describe_mount_target_security_groups small_account;
     rds_describe_db_instances := rds_describe_db_instances small_account;
     elasticache_describe_cache_clusters :=
       elasticache_describe_cache_clusters small_account;
     lambda_list_functions := lambda_list_functions small_account;
     redshift_describe_clusters := redshift_describe_clusters small_account |}.

End SgOrphans.

(** ** Proofs: the threaded delete *)

Module S3DeleteProofs.
Import S3Delete.

(** *** The invariants hold in every reachable state *)

Lemma run_reachable c ev sched s :
  Reachable c ev s -> Reachable c ev (run c ev sched s).
Proof.
  revert s. induction sched as [|t rest IH]; intros s Hs; simpl; [exact Hs|].
  destruct (step c ev t s) as [s'|] eqn:E.
  - apply IH. eapply R_step; eauto.
  - apply IH, Hs.
Qed.

(** Case analysis on a step: one goal per transition. *)
Ltac step_inv H :=
  match type of H with
  | step _ _ ?t ?s = Some _ =>
      destruct s as [m ws q h]; destruct t as [|i];
      cbn [step] in H; [unfold step_main in H|unfold step_worker in H];
      cbn [main workers queue history] in H;
      repeat match type of H with
             | context [match ?x with _ => _ end] => destruct x eqn:?
             end;
      try discriminate H;
      injection H as <-;
      cbn [main workers queue history] in *
  end.

Lemma omap_snoc {A B} (f : A -> option B) (l : list A) (x : A) :
  omap f (l ++ [x]) = omap f l ++ option_list (f x).
Proof. rewrite omap_app. simpl. destruct (f x); reflexivity. Qed.

(** Replacing worker [i] changes the held tasks at that worker only. *)
Lemma held_insert (ws : list wstate) (i : nat) (w w' : wstate) :
  ws !! i = Some w ->
  exists rest,
    omap holding ws ≡ₚ option_list (holding w) ++ rest /\
    omap holding (<[i := w']> ws) ≡ₚ option_list (holding w') ++ rest.
Proof.
  intros Hi.
  exists (omap holding (take i ws) ++ omap holding (drop (S i) ws)).
  assert (Hlt : i < length ws) by (eapply lookup_lt_Some; eauto).
  split.
  - rewrite <- (take_drop_middle ws i w Hi) at 1.
    rewrite omap_app. simpl.
    destruct (holding w); simpl; [|reflexivity].
    symmetry. apply Permutation_middle.
  - rewrite insert_take_drop by exact Hlt.
    rewrite omap_app. simpl.
    destruct (holding w'); simpl; [|reflexivity].
    symmetry. apply Permutation_middle.
Qed.

Lemma queue_inv_init : queue_inv init.
Proof. split; reflexivity. Qed.

Ltac hist_simpl :=
  unfold puts, acked, acks, held, list_calls in *;
  cbn [main workers queue history
       Queue.items Queue.unfinished_tasks Queue.put Queue.empty] in *;
  rewrite ?omap_snoc;
  unfold option_list;
  cbn [option_rect put_of ack_of list_of holding];
  rewrite ?fmap_app, ?app_nil_r; cbn [fmap list_fmap fst].

(** The effect of replacing worker [i] on the held tasks, as hypotheses. *)
Ltac held_at w' :=
  match goal with
  | H : ?ws !! ?i = Some ?w |- context [<[?i := _]> ?ws] =>
      destruct (held_insert ws i w w' H) as (rest & Hheld & Hheld');
      unfold option_list in Hheld, Hheld';
      cbn [option_rect holding app] in Hheld, Hheld'
  end.

Ltac perm_tail :=
  simpl;
  first [reflexivity
        |apply Permutation_app_head;
         first [reflexivity|symmetry; apply Permutation_middle]].

Ltac queue_get :=
  match goal with
  | H : Queue.get ?q = Some _ |- _ =>
      unfold Queue.get in H; destruct (Queue.items q) eqn:?;
      [discriminate H|]; injection H as -> <-;
      cbn [Queue.items Queue.unfinished_tasks]
  end.

Ltac queue_task_done :=
  match goal with
  | H : Queue.task_done ?q = _ |- _ =>
      unfold Queue.task_done in H; destruct (Queue.unfinished_tasks q) eqn:?;
      try discriminate H; injection H as <-;
      cbn [Queue.items Queue.unfinished_tasks]
  end.

Lemma queue_inv_step c ev t s s' :
  queue_inv s -> step c ev t s = Some s' -> queue_inv s'.
Proof.
  intros [Hs Hp Hc] H.
  step_inv H; subst;
    (split;
     [intros Hm; try discriminate Hm;
      specialize (Hs Hm); injection Hs as -> -> -> ->; discriminate|..]);
    hist_simpl.
  all: try (specialize (Hs eq_refl); injection Hs as -> -> ->; reflexivity).
  all: try exact Hp; try exact Hc.
  - (* put *) rewrite Hp, !app_assoc. reflexivity.
  - rewrite Hc, length_app. simpl. lia.
  - (* get *)
    held_at (WTry t). queue_get.
    rewrite Hheld', Hp, Hheld. perm_tail.
  - held_at (WTry t). queue_get.
    rewrite Hc, Hheld', Hheld. simpl. lia.
  - (* delete_object *)
    held_at (WFinally t (delete_object c t.1 t.2)).
    rewrite Hheld', Hp, Hheld. reflexivity.
  - held_at (WFinally t (delete_object c t.1 t.2)).
    rewrite Hc, Hheld', Hheld. reflexivity.
  - (* task_done after a delete that raised *)
    held_at (WDead e). queue_task_done.
    rewrite Hheld', Hp, Hheld. rewrite <- app_assoc. perm_tail.
  - held_at (WDead e). queue_task_done.
    rewrite Hheld'. rewrite Hheld in Hc. simpl in Hc. lia.
  - (* task_done after a delete that returned *)
    held_at WGet. queue_task_done.
    rewrite Hheld', Hp, Hheld. rewrite <- app_assoc. perm_tail.
  - held_at WGet. queue_task_done.
    rewrite Hheld'. rewrite Hheld in Hc. simpl in Hc. lia.
  - (* task_done with the counter at zero: no task is held then *)
    held_at (WDead e). queue_task_done.
    rewrite Hheld in Hc. simpl in Hc. lia.
  - held_at (WDead e). queue_task_done.
    rewrite Hheld in Hc. simpl in Hc. lia.
Qed.

Lemma queue_inv_reachable c ev s : Reachable c ev s -> queue_inv s.
Proof.
  induction 1; eauto using queue_inv_init, queue_inv_step.
Qed.

Lemma join_ready_true q : Queue.join_ready q = true -> Queue.unfinished_tasks q = 0.
Proof. unfold Queue.join_ready. destruct (Queue.unfinished_tasks q); done. Qed.

Lemma main_inv_step c ev t s s' :
  main_inv c ev s -> step c ev t s = Some s' -> main_inv c ev s'.
Proof.
  intros Hm H. unfold main_inv, enumerated, listed in *.
  step_inv H; subst; hist_simpl; unfold pool_size in *;
    rewrite ?length_app, ?length_insert; cbn [length].
  (* handler, from line 29 *)
  all: try (injection Hm as -> -> ->; simpl;
            split; [reflexivity|split; [lia|eauto]]).
  (* a worker: handler stays where it is *)
  all: try (destruct m;
            first [exact Hm
                  |injection Hm as -> -> ->; discriminate
                  |destruct Hm as (-> & Hu & Hm);
                   (split; [reflexivity|]); split; [|exact Hm]]).
  all: try (queue_get; exact Hu).
  all: try (queue_task_done; first [exact Hu | congruence]).
  all: try exact Hu.
  (* handler, after line 29 *)
  all: try (destruct Hm as ((? & ? & ? & ? & ?) & ? & ?);
            split; [assumption|split; [lia|eauto]]).
  - injection Hm as -> -> ->. simpl. split; [|split; [reflexivity|lia]].
    eexists; repeat split; eauto.
  - destruct Hm as (Hl & Hp & Hw). split; [exact Hl|split; [exact Hp|simpl in Hw; lia]].
  - destruct Hm as (Hl & Hp & Hw). split; [exact Hl|split; [exact Hp|simpl in Hw; lia]].
  - destruct Hm as (Hl & Hp & Hw). eexists _, _. split; [exact Hl|].
    split; [eassumption|]. rewrite Hp. split; [reflexivity|lia].
  - destruct Hm as (r & all & Hl & Hc & Hp & Hw). eexists _, _, _.
    split; [exact Hl|]. split; [exact Hc|]. rewrite Hp. simpl.
    rewrite app_nil_r. split; [reflexivity|lia].
  - destruct Hm as (r & all & Hl & Hc & Hp & Hw). eexists _, _.
    split; [exact Hl|]. split; [exact Hc|]. rewrite Hp, <- app_assoc.
    split; [reflexivity|lia].
  - split; [reflexivity|]. split; [|exact Hm].
    apply join_ready_true. assumption.
Qed.

Lemma main_inv_reachable c ev s : Reachable c ev s -> main_inv c ev s.
Proof.
  induction 1; eauto using main_inv_step. reflexivity.
Qed.

Lemma worker_inv_init c : worker_inv c init.
Proof.
  split; simpl; intros.
  - discriminate.
  - discriminate.
  - unfold acks in *. simpl in *. by apply elem_of_nil in H.
Qed.

Ltac worker_cases :=
  repeat match goal with
         | H : _ \/ _ |- _ => destruct H
         | H : _ /\ _ |- _ => destruct H
         | H : _ ∈ _ ++ _ |- _ => apply elem_of_app in H
         | H : _ ∈ [_] |- _ => apply list_elem_of_singleton in H
         | H : WGet = _ |- _ => discriminate H
         | H : WTry _ = _ |- _ => discriminate H
         | H : WFinally _ _ = WDead _ |- _ => discriminate H
         | H : WDead _ = WFinally _ _ |- _ => discriminate H
         | H : WFinally _ _ = WFinally _ _ |- _ => injection H as <- <-
         | H : WDead _ = WDead _ |- _ => injection H as <-
         | H : (_, _) = (_, _) |- _ => injection H as -> ->
         end;
  subst.

Lemma worker_inv_step c ev t s s' :
  queue_inv s -> worker_inv c s -> step c ev t s = Some s' -> worker_inv c s'.
Proof.
  intros [_ _ Hc] [Hf Hd Ha] H.
  step_inv H; subst; (split; hist_simpl).
  all: try exact Hf; try exact Hd; try exact Ha.
  (* task_done never finds the counter at zero while a task is held *)
  all: try (held_at WGet; queue_task_done; exfalso;
            rewrite Hheld in Hc; simpl in Hc; lia).
  all: intros *;
    rewrite ?list_lookup_insert_Some, ?lookup_snoc_Some;
    try setoid_rewrite elem_of_app;
    try setoid_rewrite list_elem_of_singleton;
    intros; worker_cases.
  all: try match goal with
           | H : _ !! _ = Some (WFinally _ _) |- _ =>
               destruct (Hf _ _ _ H) as [? ?]
           end.
  all: try match goal with
           | H : _ !! _ = Some (WDead _) |- _ => destruct (Hd _ _ H) as [? ?]
           end.
  all: eauto.
Qed.

Lemma worker_inv_reachable c ev s : Reachable c ev s -> worker_inv c s.
Proof.
  induction 1;
    eauto using worker_inv_init, worker_inv_step, queue_inv_reachable.
Qed.

(** *** Consequences used by several results *)

Lemma filter_split_length {A} (f : A -> bool) (l : list A) :
  length (List.filter f l) + length (List.filter (fun a => negb (f a)) l) = length l.
Proof.
  induction l as [|a l IH]; simpl; [reflexivity|].
  destruct (f a); simpl; lia.
Qed.

(** Once join has returned: every key of the response was put, nothing is
    queued or held, and the acknowledged tasks are the enqueued ones. *)
Lemma returned_all_acked c ev s v :
  Reachable c ev s -> main s = MReturned v ->
  v = PyNone /\ enumerated c ev s /\ held s = [] /\ Queue.items (queue s) = [] /\
  (acked s ≡ₚ puts s).
Proof.
  intros Hr Hv.
  pose proof (main_inv_reachable _ _ _ Hr) as Hm.
  destruct (queue_inv_reachable _ _ _ Hr) as [_ Hp Hc].
  unfold main_inv in Hm. rewrite Hv in Hm. destruct Hm as (-> & Hu & He).
  rewrite Hu in Hc.
  assert (Hh : held s = []) by (apply length_zero_iff_nil; lia).
  assert (Hi : Queue.items (queue s) = []) by (apply length_zero_iff_nil; lia).
  repeat split; try assumption.
  rewrite Hp, Hh, Hi. simpl. rewrite app_nil_r. reflexivity.
Qed.

(** A worker that holds a task finds the counter above zero. *)
Lemma holding_unfinished c ev s i w t :
  Reachable c ev s -> workers s !! i = Some w -> holding w = Some t ->
  exists n, Queue.unfinished_tasks (queue s) = S n.
Proof.
  intros Hr Hi Hw.
  destruct (queue_inv_reachable _ _ _ Hr) as [_ _ Hc].
  destruct (held_insert _ _ _ WGet Hi) as (rest & Hh & _).
  unfold held in Hc. rewrite Hh, Hw in Hc. simpl in Hc.
  eexists. exact Hc.
Qed.

(** handler reads its event through 'Bucket' and 'Prefix' alone. *)
Lemma step_event_irrelevant c (ev ev' : event) t s :
  ev' !! "Bucket" = ev !! "Bucket" -> ev' !! "Prefix" = ev !! "Prefix" ->
  step c ev' t s = step c ev t s.
Proof.
  intros Hb Hp. destruct t; [|reflexivity].
  simpl. unfold step_main. rewrite Hb, Hp. reflexivity.
Qed.

Lemma reachable_event_irrelevant c (ev ev' : event) s :
  ev' !! "Bucket" = ev !! "Bucket" -> ev' !! "Prefix" = ev !! "Prefix" ->
  Reachable c ev s -> Reachable c ev' s.
Proof.
  intros Hb Hp. induction 1 as [|s t s' _ IH Hs]; [constructor|].
  eapply R_step; [exact IH|].
  rewrite (step_event_irrelevant c ev ev') by assumption. exact Hs.
Qed.

Lemma filter_all_true {A} (f : A -> bool) (l : list A) :
  (forall a, a ∈ l -> f a = true) ->
  List.filter f l = l /\ List.filter (fun a => negb (f a)) l = [].
Proof.
  induction l as [|a l IH]; intros Hall; simpl; [split; reflexivity|].
  rewrite (Hall a) by (left). simpl.
  destruct IH as [-> ->]; [|split; reflexivity].
  intros b Hb. apply Hall. right. exact Hb.
Qed.

Lemma stuck_all_dead c ev s :
  main s = MJoin -> Queue.join_ready (queue s) = false ->
  Forall (fun w => exists e, w = WDead e) (workers s) ->
  stuck c ev s.
Proof.
  intros Hm Hj Hw [|i]; simpl.
  - unfold step_main. rewrite Hm, Hj. reflexivity.
  - unfold step_worker. destruct (workers s !! i) as [w|] eqn:Hi; [|reflexivity].
    rewrite Forall_lookup in Hw. destruct (Hw _ _ Hi) as [e ->]. reflexivity.
Qed.

(** *** The claims on the pipeline *)

(** C1, as stated, fails: a delete_object that raises is caught nowhere.
    With one key whose delete raises, worker 0 acknowledges the key and is
    then ended by the exception; it takes no further step. *)
Lemma failing_delete_ends_worker :
  let c := single_page_client 1 always_raises in
  let s := run c the_event (round_robin 20) init in
  Reachable c the_event s /\
  workers s !! 0 = Some (WDead (ClientError "AccessDenied")) /\
  step c the_event (TWorker 0) s = None.
Proof.
  intros c s. split; [apply run_reachable, R_init|].
  split; vm_compute; reflexivity.
Qed.

(** C1 (amended): for every task a worker processes, whether delete_object
    returns or raises, the worker's next two steps call it and then
    acknowledge the task exactly once through task_done in the finally
    clause; the queue is left the same in both cases, so no outcome is kept;
    after a delete that returned the worker is back at queue.get().  There
    is no shutdown signal: a worker is ended only by an exception that one
    of its own delete_object calls raised. *)
Theorem finally_acknowledges c ev s :
  Reachable c ev s ->
  (forall i t, workers s !! i = Some (WTry t) ->
     exists s1 s2,
       step c ev (TWorker i) s = Some s1 /\ step c ev (TWorker i) s1 = Some s2 /\
       acks s2 = acks s ++ [(t, delete_object c t.1 t.2)] /\
       Queue.items (queue s2) = Queue.items (queue s) /\
       S (Queue.unfinished_tasks (queue s2)) = Queue.unfinished_tasks (queue s) /\
       (delete_object c t.1 t.2 = None -> workers s2 !! i = Some WGet)) /\
  (forall i e, workers s !! i = Some (WDead e) ->
     exists t, EvDelete i t (Some e) ∈ history s).
Proof.
  intros Hr. split; [|apply (wi_dead _ _ (worker_inv_reachable _ _ _ Hr))].
  intros i t Hi.
  destruct (holding_unfinished _ _ _ _ _ t Hr Hi eq_refl) as [n Hn].
  assert (Hlt : i < length (workers s)) by (eapply lookup_lt_Some; eauto).
  eexists _, _. split.
  { simpl. unfold step_worker. rewrite Hi. reflexivity. }
  split.
  { simpl. unfold step_worker. cbn [workers queue].
    rewrite list_lookup_insert_eq by exact Hlt.
    unfold Queue.task_done. rewrite Hn. reflexivity. }
  unfold acks. cbn [history queue workers Queue.items Queue.unfinished_tasks].
  rewrite !omap_snoc. simpl. rewrite app_nil_r.
  repeat split; [congruence|].
  intros ->. rewrite list_insert_insert_eq.
  apply list_lookup_insert_eq. exact Hlt.
Qed.

Lemma finally_acknowledges_witness :
  let c := single_page_client 3 never_raises in
  let s := run c the_event (round_robin 13) init in
  workers s !! 1 = Some (WTry ("bucket", "key2")) /\
  exists s1 s2,
    step c the_event (TWorker 1) s = Some s1 /\
    step c the_event (TWorker 1) s1 = Some s2 /\
    acks s2 = acks s ++ [(("bucket", "key2"), None)] /\
    Queue.items (queue s2) = Queue.items (queue s) /\
    S (Queue.unfinished_tasks (queue s2)) = Queue.unfinished_tasks (queue s) /\
    (@None exn = None -> workers s2 !! 1 = Some WGet).
Proof.
  intros c s.
  assert (Hw : workers s !! 1 = Some (WTry ("bucket", "key2")))
    by (vm_compute; reflexivity).
  split; [exact Hw|].
  exact (proj1 (finally_acknowledges c the_event s
                  (run_reachable c the_event _ init (R_init c the_event)))
               1 ("bucket", "key2") Hw).
Defined.

(** C2: the code at the failing input.  Nine keys, every delete_object
    raising: each of the eight workers acknowledges one key and is ended by
    the exception, the ninth key stays in the queue, claimed by no worker and
    never acknowledged, and no thread can move again: handler stays in
    queue.join() for ever. *)
Theorem ninth_task_never_acknowledged :
  let c := single_page_client 9 always_raises in
  let s := run c the_event (round_robin 40) init in
  Reachable c the_event s /\
  puts s = map (task_of "bucket") (objects 1 9) /\
  Forall (fun w => exists e, w = WDead e) (workers s) /\
  Queue.items (queue s) = [("bucket", "key9")] /\
  (("bucket", "key9") ∉ acked s) /\
  main s = MJoin /\
  stuck c the_event s.
Proof.
  intros c s.
  assert (Hw : workers s = replicate 8 (WDead (ClientError "AccessDenied")))
    by (vm_compute; reflexivity).
  assert (Hd : Forall (fun w => exists e, w = WDead e) (workers s)).
  { rewrite Hw. apply Forall_replicate. eexists. reflexivity. }
  split; [apply run_reachable, R_init|].
  split; [vm_compute; reflexivity|].
  split; [exact Hd|].
  split; [vm_compute; reflexivity|].
  split.
  { replace (acked s) with (map (task_of "bucket") (objects 1 8))
      by (vm_compute; reflexivity).
    apply (bool_decide_unpack _). vm_compute. reflexivity. }
  split; [vm_compute; reflexivity|].
  apply stuck_all_dead; [vm_compute; reflexivity|vm_compute; reflexivity|exact Hd].
Qed.

(** C3: in every run, once queue.join() has returned, the loop over
    response['Contents'] is over (every key of the response was put, in
    order) and every enqueued task has been acknowledged: the acknowledged
    tasks are a rearrangement of the enqueued ones, and none is still queued
    or held by a worker. *)
Theorem no_premature_completion c ev s v :
  Reachable c ev s -> main s = MReturned v ->
  enumerated c ev s /\ (acked s ≡ₚ puts s) /\
  held s = [] /\ Queue.items (queue s) = [].
Proof.
  intros Hr Hv.
  destruct (returned_all_acked _ _ _ _ Hr Hv) as (_ & He & Hh & Hi & Hp).
  auto.
Qed.

Lemma no_premature_completion_witness :
  let c := single_page_client 3 never_raises in
  let s := run c the_event (round_robin 20) init in
  main s = MReturned PyNone /\
  (enumerated c the_event s /\ (acked s ≡ₚ puts s) /\
   held s = [] /\ Queue.items (queue s) = []).
Proof.
  intros c s.
  assert (Hm : main s = MReturned PyNone) by (vm_compute; reflexivity).
  split; [exact Hm|].
  exact (no_premature_completion c the_event s PyNone
           (run_reachable c the_event _ init (R_init c the_event)) Hm).
Defined.

(** The queue can be empty while handler is still enumerating; join has not
    returned then. *)
Example queue_empty_mid_enumeration :
  let s := run (single_page_client 3 never_raises) the_event (round_robin 13) init in
  Queue.items (queue s) = [] /\ main s = MPut "bucket" (objects 3 1).
Proof. split; vm_compute; reflexivity. Qed.

(** C4: in every run, once handler reports completion, the number of
    acknowledgements after a delete that returned plus the number after a
    delete that raised equals the number of identifiers enqueued. *)
Theorem accounting_conservation c ev s v :
  Reachable c ev s -> main s = MReturned v ->
  succeeded s + failed s = submitted s.
Proof.
  intros Hr Hv.
  destruct (returned_all_acked _ _ _ _ Hr Hv) as (_ & _ & _ & _ & Hp).
  unfold succeeded, failed, submitted.
  rewrite filter_split_length, <- Hp. unfold acked.
  rewrite length_fmap. reflexivity.
Qed.

Lemma accounting_conservation_witness :
  let c := single_page_client 3 always_raises in
  let s := run c the_event (round_robin 20) init in
  main s = MReturned PyNone /\ succeeded s + failed s = submitted s.
Proof.
  intros c s.
  assert (Hm : main s = MReturned PyNone) by (vm_compute; reflexivity).
  split; [exact Hm|].
  exact (accounting_conservation c the_event s PyNone
           (run_reachable c the_event _ init (R_init c the_event)) Hm).
Defined.

(** C5, as stated, fails: against a listing service with 25 keys on pages of
    10, 10 and 5, an enumerator that follows the tokens yields 25 keys, while
    a completed run of handler has made one call and enqueued the 10 keys of
    the first page. *)
Lemma first_page_only :
  let s := run paged_client the_event (round_robin 30) init in
  spec_enumerate 3 paged_client "bucket" "logs/" None
    = Some (Ok (map key_name (seq 1 25))) /\
  main s = MReturned PyNone /\
  list_calls s = [("bucket", "logs/", None)] /\
  puts s = map (task_of "bucket") (objects 1 10) /\
  submitted s <> 25.
Proof.
  intros s. repeat split; try (vm_compute; reflexivity).
  vm_compute. discriminate.
Qed.

(** C5 (amended): handler makes at most one listing call, without a
    continuation token, and follows none; once its loop is over, the
    identifiers enqueued are exactly the keys of that one response, each put
    once, in the order of the response.  (Of 25 keys on pages of 10, 10 and 5
    that is the first 10.) *)
Theorem single_listing_call c ev s :
  Reachable c ev s ->
  (list_calls s = [] \/ exists b p, list_calls s = [(b, p, None)]) /\
  (main s = MJoin \/ (exists v, main s = MReturned v) ->
   exists b p r all,
     list_calls s = [(b, p, None)] /\ list_objects_v2 c b p None = Ok r /\
     Contents r = Some all /\ puts s = map (task_of b) all).
Proof.
  intros Hr. pose proof (main_inv_reachable _ _ _ Hr) as Hm.
  unfold main_inv, enumerated, listed in Hm.
  split.
  - destruct (main s); try (rewrite Hm; left; reflexivity);
      repeat match goal with
             | H : _ /\ _ |- _ => destruct H
             | H : exists _, _ |- _ => destruct H
             end; eauto.
  - intros [Hj|[v Hv]]; [rewrite Hj in Hm|rewrite Hv in Hm];
      repeat match goal with
             | H : _ /\ _ |- _ => destruct H
             | H : exists _, _ |- _ => destruct H
             end; eauto 10.
Qed.

Lemma single_listing_call_witness :
  let s := run paged_client the_event (round_robin 30) init in
  main s = MReturned PyNone /\
  exists b p r all,
    list_calls s = [(b, p, None)] /\
    list_objects_v2 paged_client b p None = Ok r /\
    Contents r = Some all /\ puts s = map (task_of b) all.
Proof.
  intros s.
  assert (Hm : main s = MReturned PyNone) by (vm_compute; reflexivity).
  split; [exact Hm|].
  exact (proj2 (single_listing_call paged_client the_event s
                  (run_reachable paged_client the_event _ init
                     (R_init paged_client the_event)))
               (or_intror (ex_intro _ PyNone Hm))).
Defined.

(** C6, as stated, fails: handler has no return statement.  In Scenario A
    (25 keys on three pages, poolSize 4 asked for, every delete succeeding) a
    completed run returns None, after 10 keys were enqueued. *)
Lemma scenario_A_returns_none :
  let s := run paged_client event_pool4 (round_robin 30) init in
  main s = MReturned PyNone /\ PyNone <> scenario_A_result /\ submitted s = 10.
Proof.
  intros s. split; [vm_compute; reflexivity|].
  split; [discriminate|vm_compute; reflexivity].
Qed.

(** C6 (amended): every run that completes returns None; no result of the
    shape { submitted, succeeded, failed, failures } is built or returned.
    The counts are those of the run's history only: when every delete
    succeeds, every enqueued identifier is acknowledged after a successful
    delete and none after a failed one.  (For 25 identifiers on pages of
    10, 10 and 5 the run returns None with 10 submitted, 10 succeeded and
    0 failed.) *)
Theorem handler_returns_none c ev s v :
  Reachable c ev s -> main s = MReturned v ->
  v = PyNone /\
  ((forall b k, delete_object c b k = None) ->
   succeeded s = submitted s /\ failed s = 0).
Proof.
  intros Hr Hv.
  destruct (returned_all_acked _ _ _ _ Hr Hv) as (-> & _ & _ & _ & Hp).
  split; [reflexivity|]. intros Hok.
  destruct (filter_all_true is_ok (acks s)) as [H1 H2].
  { intros [t r] Hin. unfold is_ok. simpl.
    rewrite (wi_acks _ _ (worker_inv_reachable _ _ _ Hr) _ _ Hin), Hok.
    reflexivity. }
  unfold succeeded, failed, submitted. rewrite H1, H2, <- Hp.
  unfold acked. rewrite length_fmap. split; reflexivity.
Qed.

Lemma handler_returns_none_witness :
  let s := run paged_client event_pool4 (round_robin 30) init in
  main s = MReturned PyNone /\
  (forall b k, delete_object paged_client b k = None) /\
  (succeeded s = submitted s /\ failed s = 0) /\
  submitted s = 10.
Proof.
  intros s.
  assert (Hm : main s = MReturned PyNone) by (vm_compute; reflexivity).
  assert (Hok : forall b k, delete_object paged_client b k = None)
    by (intros; reflexivity).
  split; [exact Hm|]. split; [exact Hok|]. split; [|vm_compute; reflexivity].
  exact (proj2 (handler_returns_none paged_client event_pool4 s PyNone
                  (run_reachable paged_client event_pool4 _ init
                     (R_init paged_client event_pool4)) Hm) Hok).
Defined.

(** C7, as stated, fails: a listing service that fails on its second page
    is never asked for it.  The run makes its one call, deletes the first
    page and returns normally; no error reaches the caller. *)
Lemma second_page_failure_not_seen :
  let c := second_page_fails_client in
  let s := run c the_event (round_robin 30) init in
  list_objects_v2 c "bucket" "logs/" (Some "page2")
    = Raise (ClientError "InternalError") /\
  main s = MReturned PyNone /\
  list_calls s = [("bucket", "logs/", None)] /\
  submitted s = 10.
Proof.
  intros c s. repeat split; vm_compute; reflexivity.
Qed.

(** C7 (amended): a failure of the listing call (the only one, for the first
    page) is fatal: handler stops at once and the exception the client
    raised is what reaches the caller; no queue item, worker or result
    exists at that point, and the run stays there. *)
Theorem listing_failure_aborts c (ev : event) b p e :
  ev !! "Bucket" = Some (PyStr b) -> ev !! "Prefix" = Some (PyStr p) ->
  list_objects_v2 c b p None = Raise e ->
  let aborted := {| main := MRaised e; workers := []; queue := Queue.empty;
                    history := [EvList b p None] |} in
  step c ev TMain init = Some aborted /\
  stuck c ev aborted /\
  forall s, Reachable c ev s -> s = init \/ s = aborted.
Proof.
  intros Hb Hp He aborted.
  assert (Hstep : step c ev TMain init = Some aborted).
  { simpl. unfold step_main. simpl. rewrite Hb, Hp, He. reflexivity. }
  assert (Hstuck : stuck c ev aborted) by (intros [|i]; reflexivity).
  split; [exact Hstep|]. split; [exact Hstuck|].
  induction 1 as [|s t s' _ IH Hs]; [left; reflexivity|].
  destruct IH as [->| ->].
  - destruct t as [|i]; [|discriminate Hs].
    rewrite Hstep in Hs. injection Hs as <-. right. reflexivity.
  - rewrite Hstuck in Hs. discriminate Hs.
Qed.

Lemma listing_failure_aborts_witness :
  let c := listing_fails_client in
  let aborted := {| main := MRaised (ClientError "AccessDenied"); workers := [];
                    queue := Queue.empty;
                    history := [EvList "bucket" "logs/" None] |} in
  step c the_event TMain init = Some aborted /\
  stuck c the_event aborted /\
  forall s, Reachable c the_event s -> s = init \/ s = aborted.
Proof.
  intros c aborted.
  apply (listing_failure_aborts c the_event "bucket" "logs/"
           (ClientError "AccessDenied")); vm_compute; reflexivity.
Defined.

(** C8, as stated, fails: with poolSize 4 in the event, the run starts eight
    workers. *)
Lemma pool_size_field_ignored :
  let s := run (single_page_client 3 never_raises) event_pool4 (round_robin 20) init in
  event_pool4 !! "poolSize" = Some (PyInt 4) /\
  main s = MReturned PyNone /\
  length (workers s) = 8 /\ length (workers s) <> 4.
Proof.
  intros s. repeat split; try (vm_compute; reflexivity).
  vm_compute. discriminate.
Qed.

(** C8 (amended): the worker pool is a fixed set of 8 workers: a run never
    has more, and has exactly 8 from the moment handler starts to enumerate.
    The size is the constant 8 of the script and cannot be configured: the
    event is read through 'Bucket' and 'Prefix' alone, so any other field,
    poolSize included, changes nothing of a run. *)
Theorem pool_size_fixed c (ev : event) s :
  Reachable c ev s ->
  length (workers s) <= 8 /\
  (match main s with
   | MList | MStart _ _ _ | MRaised _ => True
   | _ => length (workers s) = 8
   end) /\
  (forall ev' : event,
     ev' !! "Bucket" = ev !! "Bucket" -> ev' !! "Prefix" = ev !! "Prefix" ->
     Reachable c ev' s).
Proof.
  intros Hr. pose proof (main_inv_reachable _ _ _ Hr) as Hm.
  unfold main_inv, enumerated, pool_size in Hm.
  repeat split.
  - destruct (main s); try (rewrite Hm; simpl; lia);
      repeat match goal with
             | H : _ /\ _ |- _ => destruct H
             | H : exists _, _ |- _ => destruct H
             end; lia.
  - destruct (main s); try exact I;
      repeat match goal with
             | H : _ /\ _ |- _ => destruct H
             | H : exists _, _ |- _ => destruct H
             end; assumption.
  - intros ev' Hb Hp. eapply reachable_event_irrelevant; eauto.
Qed.

Lemma pool_size_fixed_witness :
  let c := single_page_client 3 never_raises in
  let s := run c event_pool4 (round_robin 20) init in
  length (workers s) <= 8 /\
  (match main s with
   | MList | MStart _ _ _ | MRaised _ => True
   | _ => length (workers s) = 8
   end) /\
  (forall ev' : event,
     ev' !! "Bucket" = event_pool4 !! "Bucket" ->
     ev' !! "Prefix" = event_pool4 !! "Prefix" ->
     Reachable c ev' s).
Proof.
  intros c s.
  exact (pool_size_fixed c event_pool4 s
           (run_reachable c event_pool4 _ init (R_init c event_pool4))).
Defined.

End S3DeleteProofs.

(** ** Proofs: cleanup_snapshots *)

Module EbsBackupProofs.
Import EbsBackup.

Lemma count_snoc f h ev :
  count f (h ++ [ev]) = count f h + (if f ev then 1 else 0).
Proof.
  unfold count. rewrite List.filter_app, length_app. simpl.
  destruct (f ev); reflexivity.
Qed.

Lemma clean_snoc h ev : clean h -> is_failure ev = false -> clean (h ++ [ev]).
Proof.
  intros Hc He. apply Forall_app. split; [exact Hc|].
  constructor; [exact He|constructor].
Qed.

Lemma clean_failure_last h : clean h -> failure_last h.
Proof.
  intros Hc ev Hin Hf. unfold clean in Hc. rewrite Forall_forall in Hc.
  rewrite (Hc _ Hin) in Hf. discriminate.
Qed.

Lemma failed_failure_last h ev : clean h -> failure_last (h ++ [ev]).
Proof.
  intros Hc ev' Hin Hf. rewrite last_snoc.
  apply elem_of_app in Hin. destruct Hin as [Hin|Hin].
  - unfold clean in Hc. rewrite Forall_forall in Hc.
    rewrite (Hc _ Hin) in Hf. discriminate.
  - apply list_elem_of_singleton in Hin. congruence.
Qed.

Lemma tally_snoc out h ev :
  tally out h ->
  tally {| removed := removed out + (if is_deleted ev then 1 else 0);
           retained := retained out + (if is_kept ev then 1 else 0) |}
        (h ++ [ev]).
Proof.
  intros [Hr Hk]. split; simpl; rewrite count_snoc; congruence.
Qed.

(** One page: the counters stay those of the history, and the loop is left
    early only by a failed delete, which is then the last event. *)
Lemma scan_page_spec c now ret snaps : forall out h,
  clean h -> tally out h ->
  match scan_page c now ret snaps out h with
  | (out', h', None) => tally out' h' /\ clean h'
  | (out', h', Some e) =>
      tally out' h' /\ exists h0 id, h' = h0 ++ [Deleted id (Some e)] /\ clean h0
  end.
Proof.
  induction snaps as [|snap rest IH]; intros out h Hc Ht; simpl.
  - split; assumption.
  - destruct (timedelta_days now (StartTime snap) >? ret)%Z.
    + destruct (delete_snapshot c (SnapshotId snap)) as [e|] eqn:Hd.
      * split; [|eauto].
        pose proof (tally_snoc out h (Deleted (SnapshotId snap) (Some e)) Ht) as Ht'.
        simpl in Ht'. rewrite !Nat.add_0_r in Ht'. destruct out. exact Ht'.
      * apply IH; [apply clean_snoc; [exact Hc|reflexivity]|].
        pose proof (tally_snoc out h (Deleted (SnapshotId snap) None) Ht) as Ht'.
        simpl in Ht'. rewrite Nat.add_0_r in Ht'. exact Ht'.
    + apply IH; [apply clean_snoc; [exact Hc|reflexivity]|].
      pose proof (tally_snoc out h (Kept (SnapshotId snap)) Ht) as Ht'.
      simpl in Ht'. rewrite Nat.add_0_r in Ht'. exact Ht'.
Qed.

(** The loop ends whenever the listing does, and then the counters are those
    of the history, in which a failure comes last. *)
Lemma cleanup_loop_spec c now vol ret n : forall response out h,
  pages_left c vol n response -> clean h -> tally out h ->
  exists out' h' oe,
    cleanup_loop (S n) c now vol ret response out h = Some (out', h', oe) /\
    tally out' h' /\ failure_last h'.
Proof.
  induction n as [|n IH]; intros response out h Hp Hc Ht.
  all: cbn [cleanup_loop];
    pose proof (scan_page_spec c now ret (Snapshots response) out h Hc Ht) as Hs;
    destruct (scan_page c now ret (Snapshots response) out h) as [[out' h'] [e|]].
  all: try (destruct Hs as (Ht' & h0 & id & -> & Hc0);
            eexists _, _, _; split; [reflexivity|];
            split; [exact Ht'|apply failed_failure_last, Hc0]).
  all: destruct Hs as [Ht' Hc']; simpl in Hp;
    destruct (next_token response) as [tok|];
    [|eexists _, _, _; split; [reflexivity|];
      split; [exact Ht'|apply clean_failure_last, Hc']];
    destruct (describe_snapshots c vol (Some tok)) as [response'|e];
    [|eexists _, _, _; split; [reflexivity|]; split;
      [pose proof (tally_snoc out' h' (Described vol (Some tok) (Some e)) Ht') as Ht'';
       simpl in Ht''; rewrite !Nat.add_0_r in Ht''; destruct out'; exact Ht''
      |apply failed_failure_last, Hc']].
  - contradiction.
  - apply IH; [exact Hp|apply clean_snoc; [exact Hc'|reflexivity]|].
    pose proof (tally_snoc out' h' (Described vol (Some tok) None) Ht') as Ht''.
    simpl in Ht''. rewrite !Nat.add_0_r in Ht''. destruct out'. exact Ht''.
Qed.

(** More fuel changes nothing of a loop that has ended. *)
Lemma cleanup_loop_fuel c now vol ret fuel : forall response out h x,
  cleanup_loop fuel c now vol ret response out h = Some x ->
  cleanup_loop (S fuel) c now vol ret response out h = Some x.
Proof.
  induction fuel as [|fuel IH]; intros response out h x Hx; [discriminate|].
  cbn [cleanup_loop] in *.
  destruct (scan_page c now ret (Snapshots response) out h) as [[out' h'] [e|]];
    [exact Hx|].
  destruct (next_token response) as [tok|]; [|exact Hx].
  destruct (describe_snapshots c vol (Some tok)) as [response'|e]; [|exact Hx].
  apply IH. exact Hx.
Qed.

(** C10: once the first describe_snapshots has returned, and for a listing
    that ends, cleanup_snapshots returns its output dict and raises nothing,
    whatever fails while it lists or deletes; the counts returned are those
    of what was done before the failure (removed: deletes that went through,
    retained: snapshots kept), the failed call being the last thing done;
    the value returned says nothing of the failure. *)
Theorem cleanup_swallows_failures c now vol ret response n :
  describe_snapshots c vol None = Ok response ->
  pages_left c vol n response ->
  exists out h,
    cleanup_snapshots (S n) c now vol ret = Some (Ok out, h) /\
    removed out = count is_deleted h /\
    retained out = count is_kept h /\
    failure_last h.
Proof.
  intros Hd Hp. unfold cleanup_snapshots. rewrite Hd.
  destruct (cleanup_loop_spec c now vol ret n response
              {| removed := 0; retained := 0 |} [Described vol None None] Hp)
    as (out & h & oe & Hl & [Hr Hk] & Hf).
  - constructor; [reflexivity|constructor].
  - split; reflexivity.
  - rewrite Hl. exists out, h.
    split; [reflexivity|]. split; [exact Hr|]. split; [exact Hk|exact Hf].
Qed.

Lemma cleanup_swallows_failures_witness :
  exists out h,
    cleanup_snapshots 1 in_use_client (30 * day) "vol-1" 21 = Some (Ok out, h) /\
    removed out = count is_deleted h /\
    retained out = count is_kept h /\
    failure_last h.
Proof.
  apply (cleanup_swallows_failures in_use_client (30 * day) "vol-1" 21
           {| Snapshots := old_snapshots; NextToken := None |} 0).
  - reflexivity.
  - exact I.
Defined.

(** Before the listing ends too, nothing is raised once the first call has
    returned. *)
Lemma cleanup_never_raises fuel c now vol ret response e h :
  describe_snapshots c vol None = Ok response ->
  cleanup_snapshots fuel c now vol ret <> Some (Raise e, h).
Proof.
  intros Hd. unfold cleanup_snapshots. rewrite Hd.
  destruct (cleanup_loop fuel c now vol ret response _ _) as [[[out h'] oe]|];
    discriminate.
Qed.

(** The run of the scenario: snap-1 is deleted, the delete of snap-2 raises,
    snap-3 is never looked at, and the caller gets the same dict as for a
    volume whose only old snapshot was deleted. *)
Example cleanup_partial_counts :
  cleanup_snapshots 1 in_use_client (30 * day) "vol-1" 21
  = Some (Ok {| removed := 1; retained := 0 |},
          [Described "vol-1" None None; Deleted "snap-1" None;
           Deleted "snap-2" (Some (ClientError "InvalidSnapshot.InUse"))]) /\
  fst <$> cleanup_snapshots 1 quiet_client (30 * day) "vol-1" 21
  = fst <$> cleanup_snapshots 1 in_use_client (30 * day) "vol-1" 21.
Proof. split; vm_compute; reflexivity. Qed.

End EbsBackupProofs.

(** ** Proofs: the security-group audit *)

Module SgAuditProofs.
Import SgAudit.

Lemma reads_only_ret {A} (x : A) : reads_only (mret x).
Proof. intros log. exists []. split; [symmetry; apply app_nil_r|constructor]. Qed.

Lemma reads_only_raise {A} e : reads_only (@raise A e).
Proof. intros log. exists []. split; [symmetry; apply app_nil_r|constructor]. Qed.

Lemma reads_only_loops {A} : reads_only (@loops A).
Proof. intros log. exists []. split; [symmetry; apply app_nil_r|constructor]. Qed.

Lemma reads_only_call {A} c (reply : result A) :
  read_only c = true -> reads_only (call c reply).
Proof.
  intros Hc log. exists [Call c]. split; [reflexivity|].
  constructor; [exact Hc|constructor].
Qed.

Lemma reads_only_warn g svc : reads_only (warn g svc).
Proof.
  intros log. exists [Warn g svc]. split; [reflexivity|].
  constructor; [exact I|constructor].
Qed.

Lemma reads_only_print groups : reads_only (print_groups groups).
Proof.
  intros log. exists [PrintGroups groups]. split; [reflexivity|].
  constructor; [exact I|constructor].
Qed.

Lemma reads_only_bind {A B} (m : M A) (f : A -> M B) :
  reads_only m -> (forall x, reads_only (f x)) -> reads_only (mbind f m).
Proof.
  intros Hm Hf log. unfold mbind, M_bind.
  destruct (Hm log) as (more & Hlog & Hh).
  destruct (m log) as [[x|e|] log']; simpl in Hlog; subst log'.
  - destruct (Hf x (log ++ more)) as (more' & Hlog' & Hh').
    exists (more ++ more'). rewrite Hlog', app_assoc. split; [reflexivity|].
    apply Forall_app. split; assumption.
  - exists more. split; [reflexivity|exact Hh].
  - exists more. split; [reflexivity|exact Hh].
Qed.

Lemma reads_only_catch_print m : reads_only m -> reads_only (catch_print m).
Proof.
  intros Hm log. unfold catch_print.
  destruct (Hm log) as (more & Hlog & Hh).
  destruct (m log) as [[x|e|] log']; simpl in Hlog; subst log'.
  - exists more. split; [reflexivity|exact Hh].
  - exists (more ++ [PrintException e]). simpl. rewrite app_assoc.
    split; [reflexivity|]. apply Forall_app. split; [exact Hh|].
    constructor; [exact I|constructor].
  - exists more. split; [reflexivity|exact Hh].
Qed.

Lemma reads_only_for_each {A} (xs : list A) body :
  (forall x groups, reads_only (body x groups)) ->
  forall groups, reads_only (for_each xs body groups).
Proof.
  intros Hb. induction xs as [|x rest IH]; intros groups; simpl.
  - apply reads_only_ret.
  - apply reads_only_bind; [apply Hb|exact IH].
Qed.

Lemma reads_only_discard svc g groups : reads_only (discard svc g groups).
Proof.
  unfold discard. destruct (groups !! g).
  - apply reads_only_bind; [apply reads_only_warn|intros; apply reads_only_ret].
  - apply reads_only_ret.
Qed.

Lemma reads_only_paginate {P} fuel (fetch : option string -> M P) next body :
  (forall tok, reads_only (fetch tok)) ->
  (forall page groups, reads_only (body page groups)) ->
  forall page groups, reads_only (paginate fuel fetch next body page groups).
Proof.
  intros Hf Hb. induction fuel as [|fuel IH]; intros page groups; simpl.
  - apply reads_only_loops.
  - apply reads_only_bind; [apply Hb|]. intros groups'.
    destruct (truthy (next page)).
    + apply reads_only_bind; [apply Hf|]. intros page'. apply IH.
    + apply reads_only_ret.
Qed.

Ltac reads_only_tac :=
  repeat first
    [ apply reads_only_ret
    | apply reads_only_discard
    | apply reads_only_call; reflexivity
    | apply reads_only_bind
    | apply reads_only_paginate
    | apply reads_only_for_each
    | progress intros
    | match goal with |- reads_only (match ?x with _ => _ end) => destruct x end ].

Lemma reads_only_find_orphans fuel a vpc : reads_only (find_orphans fuel a vpc).
Proof.
  unfold find_orphans, get_security_group_list. reads_only_tac.
Qed.

Lemma calls_of_app l1 l2 : calls_of (l1 ++ l2) = calls_of l1 ++ calls_of l2.
Proof. apply omap_app. Qed.

Lemma harmless_calls more :
  Forall harmless more -> Forall (fun c => read_only c = true) (calls_of more).
Proof.
  induction 1 as [|eff more Heff _ IH]; [constructor|].
  unfold calls_of in *. destruct eff; simpl; try exact IH.
  constructor; [exact Heff|exact IH].
Qed.

(** C9: remove_orphans is find_orphans: same value, same effects, from any
    state of the log; every remote call it makes is a describe or list
    call, and none removes a security group; and main makes the same remote
    calls with --delete as without. *)
Theorem remove_orphans_removes_nothing fuel a vpc log :
  remove_orphans fuel a vpc log = find_orphans fuel a vpc log /\
  (exists more,
     (remove_orphans fuel a vpc log).2 = log ++ more /\
     Forall (fun c => read_only c = true) (calls_of more) /\
     forall g, Ec2DeleteSecurityGroup g ∉ calls_of more) /\
  (forall ar,
     calls_of (main fuel a (with_delete true ar) log).2
     = calls_of (main fuel a (with_delete false ar) log).2).
Proof.
  split; [reflexivity|]. split.
  - destruct (reads_only_find_orphans fuel a vpc log) as (more & Hlog & Hh).
    exists more. split; [exact Hlog|].
    pose proof (harmless_calls more Hh) as Hro. split; [exact Hro|].
    intros g Hin. rewrite Forall_forall in Hro.
    specialize (Hro _ Hin). discriminate Hro.
  - intros ar. unfold main, with_delete. cbn [vpc_id delete_flag].
    destruct (truthy (vpc_id ar)) as [v|]; [|reflexivity].
    unfold catch_print, remove_orphans, mbind, M_bind, print_groups.
    destruct (find_orphans fuel a v log) as [[groups|e|] log']; simpl.
    + rewrite calls_of_app. simpl. rewrite app_nil_r. reflexivity.
    + reflexivity.
    + reflexivity.
Qed.

Example remove_orphans_small_account :
  exists groups log,
    remove_orphans 2 small_account "vpc-1" [] = (Val groups, log) /\
    groups !! "sg-1" = None /\
    groups !! "sg-2" = Some {| GroupId := "sg-2"; GroupName := "old"; Resources := [] |} /\
    calls_of log =
      [ Ec2DescribeSecurityGroups "vpc-1"; Ec2DescribeInstances None;
        Ec2DescribeInstances (Some "t1"); ElbDescribeLoadBalancers None;
        Elbv2DescribeLoadBalancers None; EfsDescribeFileSystems None;
        RdsDescribeDBInstances None; ElasticacheDescribeCacheClusters None;
        LambdaListFunctions None; RedshiftDescribeClusters None ].
Proof.
  eexists _, _. split; [vm_compute; reflexivity|].
  split; [vm_compute; reflexivity|].
  split; vm_compute; reflexivity.
Qed.

End SgAuditProofs.

(** ** Proofs: more on the runs of the threaded delete *)

Module S3RunsProofs.
Import S3Delete S3Runs S3DeleteProofs.

Lemma omap_insert_perm {A B} (f : A -> option B) (l : list A) (i : nat) (x x' : A) :
  l !! i = Some x ->
  exists rest,
    omap f l ≡ₚ option_list (f x) ++ rest /\
    omap f (<[i := x']> l) ≡ₚ option_list (f x') ++ rest.
Proof.
  intros Hi.
  exists (omap f (take i l) ++ omap f (drop (S i) l)).
  assert (Hlt : i < length l) by (eapply lookup_lt_Some; eauto).
  split.
  - rewrite <- (take_drop_middle l i x Hi) at 1.
    rewrite omap_app. simpl.
    destruct (f x); simpl; [|reflexivity].
    symmetry. apply Permutation_middle.
  - rewrite insert_take_drop by exact Hlt.
    rewrite omap_app. simpl.
    destruct (f x'); simpl; [|reflexivity].
    symmetry. apply Permutation_middle.
Qed.

(** queue.get() hands the tasks out in the order of the puts. *)
Lemma fifo_step c ev t s s' :
  queue_inv s -> gets s ++ Queue.items (queue s) = puts s ->
  step c ev t s = Some s' ->
  gets s' ++ Queue.items (queue s') = puts s'.
Proof.
  intros [Hs _ _] Hg H. unfold gets, puts in *.
  step_inv H; subst;
    cbn [main workers queue history Queue.items Queue.put Queue.empty] in *;
    rewrite ?omap_snoc; unfold option_list; cbn [option_rect get_of put_of];
    rewrite ?app_nil_r.
  all: try exact Hg.
  all: try (specialize (Hs eq_refl); injection Hs as -> -> ->; reflexivity).
  all: try (queue_get; rewrite <- Hg, <- app_assoc; reflexivity).
  all: try (queue_task_done; exact Hg).
  - rewrite <- Hg, app_assoc. reflexivity.
Qed.

Lemma fifo_reachable c ev s :
  Reachable c ev s -> gets s ++ Queue.items (queue s) = puts s.
Proof.
  induction 1 as [|s t s' Hr IH Hs]; [reflexivity|].
  eapply fifo_step; eauto using queue_inv_reachable.
Qed.

Ltac trying_at w' :=
  match goal with
  | H : ?ws !! ?i = Some ?w |- context [<[?i := _]> ?ws] =>
      destruct (omap_insert_perm trying ws i w w' H) as (rest & Htry & Htry');
      unfold option_list in Htry, Htry';
      cbn [option_rect trying app] in Htry, Htry'
  end.

Ltac run_simpl :=
  unfold gets, deletes, puts in *;
  cbn [main workers queue history
       Queue.items Queue.unfinished_tasks Queue.put Queue.empty] in *;
  rewrite ?omap_snoc; unfold option_list;
  cbn [option_rect get_of delete_of put_of trying];
  rewrite ?fmap_app, ?app_nil_r; cbn [fmap list_fmap fst].

Lemma delete_inv_step c ev t s s' :
  delete_inv c s -> step c ev t s = Some s' -> delete_inv c s'.
Proof.
  intros [Hp Ho] H.
  step_inv H; subst; (split; run_simpl).
  all: try exact Hp; try exact Ho.
  all: try (intros t' r'; rewrite elem_of_app, list_elem_of_singleton;
            intros [Hin|Heq]; [exact (Ho _ _ Hin)|injection Heq as -> ->; reflexivity]).
  - (* get *) trying_at (WTry t). rewrite Htry', Hp, Htry. solve_Permutation.
  - (* delete_object *)
    trying_at (WFinally t (delete_object c t.1 t.2)).
    rewrite Htry', Hp, Htry. solve_Permutation.
  - trying_at (WDead e). rewrite Htry', Hp, Htry. reflexivity.
  - trying_at WGet. rewrite Htry', Hp, Htry. reflexivity.
  - trying_at (WDead e). rewrite Htry', Hp, Htry. reflexivity.
Qed.

Lemma delete_inv_reachable c ev s : Reachable c ev s -> delete_inv c s.
Proof.
  induction 1 as [|s t s' Hr IH Hs].
  - split; [reflexivity|]. intros t r Hin. by apply elem_of_nil in Hin.
  - eapply delete_inv_step; eauto.
Qed.

(** What was put is a beginning of the listing's keys, under the event's
    bucket. *)
Lemma puts_prefix c (ev : event) s b p r all :
  Reachable c ev s ->
  ev !! "Bucket" = Some (PyStr b) -> ev !! "Prefix" = Some (PyStr p) ->
  list_objects_v2 c b p None = Ok r -> Contents r = Some all ->
  exists rest, map (task_of b) all = puts s ++ rest.
Proof.
  intros Hr Hb Hp Hl Hc. pose proof (main_inv_reachable _ _ _ Hr) as Hm.
  unfold main_inv, enumerated, listed in Hm.
  destruct (main s);
    repeat match goal with
           | H : _ /\ _ |- _ => destruct H
           | H : exists _, _ |- _ => destruct H
           end;
    repeat match goal with
           | H1 : ev !! ?k = Some _, H2 : ev !! ?k = Some _ |- _ =>
               rewrite H1 in H2; injection H2 as <-
           end;
    repeat match goal with
           | H1 : list_objects_v2 c b p None = Ok _,
             H2 : list_objects_v2 c b p None = Ok _ |- _ =>
               rewrite H1 in H2; injection H2 as <-
           | H1 : Contents r = Some _, H2 : Contents r = Some _ |- _ =>
               rewrite H1 in H2; injection H2 as <-
           end.
  all: try (subst; eexists; reflexivity).
  all: try match goal with
           | H : puts _ = [] |- _ => rewrite H; eexists; reflexivity
           end.
  all: try match goal with
           | H : map _ _ = puts _ ++ _ |- _ => eexists; exact H
           end.
  all: try match goal with
           | H : puts _ = map _ _ |- _ =>
               rewrite H; exists []; symmetry; apply app_nil_r
           end.
Qed.

(** A task put on the queue is a key of the listing under the event's
    bucket. *)
Lemma puts_listed c (ev : event) s t :
  Reachable c ev s -> t ∈ puts s ->
  exists p r all,
    ev !! "Bucket" = Some (PyStr t.1) /\ ev !! "Prefix" = Some (PyStr p) /\
    list_objects_v2 c t.1 p None = Ok r /\ Contents r = Some all /\
    t.2 ∈ Key <$> all.
Proof.
  intros Hr Hin. pose proof (main_inv_reachable _ _ _ Hr) as Hm.
  unfold main_inv, enumerated, listed in Hm.
  assert (Hfin : forall b p r all,
            ev !! "Bucket" = Some (PyStr b) -> ev !! "Prefix" = Some (PyStr p) ->
            list_objects_v2 c b p None = Ok r -> Contents r = Some all ->
            t ∈ map (task_of b) all ->
            exists p r all,
              ev !! "Bucket" = Some (PyStr t.1) /\ ev !! "Prefix" = Some (PyStr p) /\
              list_objects_v2 c t.1 p None = Ok r /\ Contents r = Some all /\
              t.2 ∈ Key <$> all).
  { intros b p r all Hb Hp Hl Hc Ht.
    apply list_elem_of_fmap in Ht. destruct Ht as (o & -> & Ho).
    exists p, r, all. simpl. repeat split; try assumption.
    apply list_elem_of_fmap. exists o. split; [reflexivity|exact Ho]. }
  destruct (main s);
    repeat match goal with
           | H : _ /\ _ |- _ => destruct H
           | H : exists _, _ |- _ => destruct H
           end;
    try (subst; by apply elem_of_nil in Hin);
    try match goal with
        | H : puts _ = [] |- _ => rewrite H in Hin; by apply elem_of_nil in Hin
        end.
  - eapply Hfin; eauto.
    match goal with H : map _ _ = puts _ ++ _ |- _ => rewrite H end.
    apply elem_of_app. left. exact Hin.
  - eapply Hfin; eauto. congruence.
  - eapply Hfin; eauto. congruence.
Qed.

Lemma submseteq_NoDup {A} (l k : list A) : l ⊆+ k -> NoDup k -> NoDup l.
Proof.
  intros Hs Hk. apply submseteq_Permutation in Hs. destruct Hs as [k' Hk'].
  rewrite Hk' in Hk. apply NoDup_app in Hk. tauto.
Qed.

Lemma acked_sub_puts c ev s : Reachable c ev s -> acked s ⊆+ puts s.
Proof.
  intros Hr. destruct (queue_inv_reachable _ _ _ Hr) as [_ Hp _].
  rewrite Hp. apply submseteq_inserts_r. reflexivity.
Qed.

Lemma deleted_sub_puts c ev s : Reachable c ev s -> (deletes s).*1 ⊆+ puts s.
Proof.
  intros Hr. rewrite <- (fifo_reachable _ _ _ Hr).
  destruct (delete_inv_reachable _ _ _ Hr) as [Hp _].
  rewrite Hp. apply submseteq_inserts_r, submseteq_inserts_r. reflexivity.
Qed.

(** *** Properties of the runs *)

(** X1: no task is acknowledged before it is enqueued or more often than it
    was enqueued: in every state of every run the acknowledged tasks are
    among the enqueued ones, counted with repetition; when the keys of the
    listing are distinct, no task is acknowledged twice. *)
Theorem acknowledged_at_most_once c (ev : event) s :
  Reachable c ev s ->
  acked s ⊆+ puts s /\
  (forall b p r all,
     ev !! "Bucket" = Some (PyStr b) -> ev !! "Prefix" = Some (PyStr p) ->
     list_objects_v2 c b p None = Ok r -> Contents r = Some all ->
     NoDup (Key <$> all) -> NoDup (acked s)).
Proof.
  intros Hr. pose proof (acked_sub_puts _ _ _ Hr) as Hs.
  split; [exact Hs|].
  intros b p r all Hb Hp Hl Hc Hn.
  destruct (puts_prefix _ _ _ _ _ _ _ Hr Hb Hp Hl Hc) as [rest Hrest].
  apply (submseteq_NoDup _ _ Hs).
  assert (Hall : NoDup (map (task_of b) all)).
  { apply (NoDup_fmap_1 snd). rewrite <- list_fmap_compose. exact Hn. }
  rewrite Hrest in Hall. apply NoDup_app in Hall. tauto.
Qed.

Lemma acknowledged_at_most_once_witness :
  let c := single_page_client 9 always_raises in
  let s := run c the_event (round_robin 40) init in
  acked s ⊆+ puts s /\ NoDup (acked s).
Proof.
  intros c s.
  pose proof (acknowledged_at_most_once c the_event s
                (run_reachable c the_event _ init (R_init c the_event))) as [H1 H2].
  split; [exact H1|].
  apply (H2 "bucket" "logs/" (one_page (objects 1 9)) (objects 1 9));
    try reflexivity.
  apply (bool_decide_unpack _). vm_compute. reflexivity.
Defined.

(** X2: queue.get() hands the tasks to the workers in the order handler put
    them: at any time, the tasks handed out so far followed by those still
    queued are the tasks put so far. *)
Theorem claimed_in_put_order c ev s :
  Reachable c ev s -> gets s ++ Queue.items (queue s) = puts s.
Proof. apply fifo_reachable. Qed.

Lemma claimed_in_put_order_witness :
  let c := single_page_client 9 always_raises in
  let s := run c the_event (round_robin 40) init in
  gets s ++ Queue.items (queue s) = puts s.
Proof.
  intros c s.
  exact (claimed_in_put_order c the_event s
           (run_reachable c the_event _ init (R_init c the_event))).
Defined.

(** X3: delete_object is called only for keys of the listing, under the
    event's bucket, and at most once for each time the key was enqueued. *)
Theorem deletes_only_listed_keys c (ev : event) s :
  Reachable c ev s ->
  (deletes s).*1 ⊆+ puts s /\
  (forall t, t ∈ (deletes s).*1 ->
     exists p r all,
       ev !! "Bucket" = Some (PyStr t.1) /\ ev !! "Prefix" = Some (PyStr p) /\
       list_objects_v2 c t.1 p None = Ok r /\ Contents r = Some all /\
       t.2 ∈ Key <$> all).
Proof.
  intros Hr. pose proof (deleted_sub_puts _ _ _ Hr) as Hs.
  split; [exact Hs|]. intros t Ht.
  eapply puts_listed; [exact Hr|]. eapply elem_of_submseteq; eauto.
Qed.

Lemma deletes_only_listed_keys_witness :
  let s := run paged_client the_event (round_robin 30) init in
  (deletes s).*1 ⊆+ puts s /\
  (forall t, t ∈ (deletes s).*1 ->
     exists p r all,
       the_event !! "Bucket" = Some (PyStr t.1) /\
       the_event !! "Prefix" = Some (PyStr p) /\
       list_objects_v2 paged_client t.1 p None = Ok r /\ Contents r = Some all /\
       t.2 ∈ Key <$> all).
Proof.
  intros s.
  exact (deletes_only_listed_keys paged_client the_event s
           (run_reachable paged_client the_event _ init
              (R_init paged_client the_event))).
Defined.

Lemma deletes_nil_of_puts_nil c ev s :
  Reachable c ev s -> puts s = [] -> deletes s = [].
Proof.
  intros Hr Hp. pose proof (deleted_sub_puts _ _ _ Hr) as Hs.
  rewrite Hp in Hs. apply submseteq_nil_r in Hs.
  destruct (deletes s); [reflexivity|discriminate Hs].
Qed.

Lemma run_cons_some c ev t rest s s' :
  step c ev t s = Some s' -> run c ev (t :: rest) s = run c ev rest s'.
Proof. intros H. simpl. rewrite H. reflexivity. Qed.

(** Lines 31-34: the workers are started one after the other. *)
Lemma run_start c ev b r rest : forall xs ws q h,
  run c ev (replicate (length xs) TMain ++ rest)
    {| main := MStart xs b r; workers := ws; queue := q; history := h |}
  = run c ev rest
      {| main := MStart [] b r; workers := ws ++ replicate (length xs) WGet;
         queue := q; history := h ++ map EvStart xs |}.
Proof.
  induction xs as [|x xs IH]; intros ws q h.
  - simpl. rewrite !app_nil_r. reflexivity.
  - cbn [length replicate app].
    erewrite run_cons_some by reflexivity.
    rewrite IH. cbn [replicate map]. rewrite <- !app_assoc. reflexivity.
Qed.

(** X4: a listing without 'Contents' (S3 leaves the key out when nothing
    matches the prefix) makes handler raise KeyError('Contents') after it
    has started its eight workers; in no run is anything enqueued or
    deleted, and handler never reports completion. *)
Theorem no_contents_key_error c (ev : event) b p r :
  ev !! "Bucket" = Some (PyStr b) -> ev !! "Prefix" = Some (PyStr p) ->
  list_objects_v2 c b p None = Ok r -> Contents r = None ->
  (let s := run c ev (replicate 11 TMain) init in
   main s = MRaised (KeyError "Contents") /\ workers s = replicate 8 WGet) /\
  (forall s, Reachable c ev s ->
     puts s = [] /\ deletes s = [] /\ forall v, main s <> MReturned v).
Proof.
  intros Hb Hp Hl Hc. split.
  - change (replicate 11 TMain)
      with (TMain :: (replicate (length (seq 0 pool_size)) TMain ++ [TMain; TMain])).
    erewrite run_cons_some
      by (cbn [step]; unfold step_main; cbn [main init]; rewrite Hb, Hp, Hl; reflexivity).
    rewrite run_start.
    erewrite run_cons_some by reflexivity.
    erewrite run_cons_some
      by (cbn [step]; unfold step_main; cbn [main]; rewrite Hc; reflexivity).
    split; reflexivity.
  - intros s Hr.
    assert (Hputs : puts s = []).
    { destruct (puts s) as [|t ts] eqn:Hps; [reflexivity|].
      destruct (puts_listed c ev s t Hr) as (p' & r' & all & Hb' & Hp' & Hl' & Hc' & _).
      { rewrite Hps. left. }
      congruence. }
    split; [exact Hputs|]. split; [eapply deletes_nil_of_puts_nil; eauto|].
    intros v Hv. pose proof (main_inv_reachable _ _ _ Hr) as Hm.
    unfold main_inv in Hm. rewrite Hv in Hm.
    destruct Hm as (_ & _ & b' & r' & all & (p' & Hb' & Hp' & Hl' & _) & Hc' & _).
    congruence.
Qed.

(** A listing service that finds nothing under the prefix. *)
Lemma no_contents_key_error_witness :
  let c := {| list_objects_v2 := fun _ _ _ =>
                Ok {| Contents := None; IsTruncated := false;
                      NextContinuationToken := None |};
              delete_object := never_raises |} in
  (let s := run c the_event (replicate 11 TMain) init in
   main s = MRaised (KeyError "Contents") /\ workers s = replicate 8 WGet) /\
  (forall s, Reachable c the_event s ->
     puts s = [] /\ deletes s = [] /\ forall v, main s <> MReturned v).
Proof.
  intros c.
  apply (no_contents_key_error c the_event "bucket" "logs/"
           {| Contents := None; IsTruncated := false;
              NextContinuationToken := None |}); reflexivity.
Defined.

(** X5: an event without 'Bucket', or with 'Bucket' and without 'Prefix',
    makes handler raise KeyError for that key before anything else happens:
    no remote call is made and no worker is started. *)
Theorem missing_event_key c (ev : event) k :
  (k = "Bucket" /\ ev !! "Bucket" = None) \/
  (k = "Prefix" /\ is_Some (ev !! "Bucket") /\ ev !! "Prefix" = None) ->
  let raised := {| main := MRaised (KeyError k); workers := [];
                   queue := Queue.empty; history := [] |} in
  step c ev TMain init = Some raised /\
  forall s, Reachable c ev s -> s = init \/ s = raised.
Proof.
  intros Hk raised.
  assert (Hstep : step c ev TMain init = Some raised).
  { simpl. unfold step_main. simpl.
    destruct Hk as [[-> Hb]|(-> & [vb Hb] & Hp)]; rewrite Hb; [reflexivity|].
    rewrite Hp. reflexivity. }
  split; [exact Hstep|].
  induction 1 as [|s t s' _ IH Hs]; [left; reflexivity|].
  destruct IH as [->| ->].
  - destruct t as [|i]; [|discriminate Hs].
    rewrite Hstep in Hs. injection Hs as <-. right. reflexivity.
  - destruct t as [|i]; discriminate Hs.
Qed.

Lemma missing_event_key_witness :
  let ev : event := {[ "Bucket" := PyStr "bucket" ]} in
  let raised := {| main := MRaised (KeyError "Prefix"); workers := [];
                   queue := Queue.empty; history := [] |} in
  step paged_client ev TMain init = Some raised /\
  forall s, Reachable paged_client ev s -> s = init \/ s = raised.
Proof.
  intros ev raised.
  apply (missing_event_key paged_client ev "Prefix").
  right. split; [reflexivity|]. split; [eexists; reflexivity|reflexivity].
Defined.

(** *** Blocking and termination *)

Lemma weight_insert (ws : list wstate) i w w' :
  ws !! i = Some w ->
  sum_list_with worker_weight (<[i := w']> ws) + worker_weight w
  = sum_list_with worker_weight ws + worker_weight w'.
Proof.
  intros Hi.
  assert (Hlt : i < length ws) by (eapply lookup_lt_Some; eauto).
  rewrite insert_take_drop by exact Hlt.
  rewrite <- (take_drop_middle ws i w Hi) at 3.
  rewrite !sum_list_with_app. simpl. lia.
Qed.

(** Every step brings the end nearer. *)
Lemma step_weight c ev t s s' :
  step c ev t s = Some s' -> weight c ev s' < weight c ev s.
Proof.
  intros H. unfold weight.
  step_inv H; subst;
    cbn [main workers queue history main_weight
         Queue.items Queue.unfinished_tasks Queue.put Queue.empty];
    rewrite ?sum_list_with_app, ?length_app;
    cbn [sum_list_with length worker_weight].
  all: repeat match goal with
              | H : _ !! _ = Some (PyStr _) |- _ => rewrite H; clear H
              | H : list_objects_v2 _ _ _ _ = _ |- _ => rewrite H; clear H
              | H : Contents _ = _ |- _ => rewrite H; clear H
              end.
  all: try match goal with
           | H : ?ws !! ?i = Some ?w |- context [<[?i := ?w']> ?ws] =>
               pose proof (weight_insert ws i w w' H) as Hw;
               cbn [worker_weight] in Hw
           end.
  all: try queue_get; try queue_task_done.
  all: unfold pool_size; cbn [seq length]; lia.
Qed.

Lemma path_weight c ev n s s' :
  Path c ev n s s' -> n + weight c ev s' <= weight c ev s.
Proof.
  induction 1 as [s|n s t s1 s' Hs _ IH]; [lia|].
  pose proof (step_weight _ _ _ _ _ Hs). lia.
Qed.

Lemma path_reachable c ev n s s' :
  Reachable c ev s -> Path c ev n s s' -> Reachable c ev s'.
Proof.
  intros Hr Hp. induction Hp as [s|n s t s1 s' Hs _ IH]; [exact Hr|].
  apply IH. eapply R_step; eauto.
Qed.

(** A delete_object call in the history is in the list of deletes. *)
Lemma delete_event_listed s i t r :
  EvDelete i t r ∈ history s -> (t, r) ∈ deletes s.
Proof.
  intros Hin. unfold deletes. apply list_elem_of_omap.
  exists (EvDelete i t r). split; [exact Hin|reflexivity].
Qed.

Lemma omap_none {A B} (f : A -> option B) (l : list A) :
  (forall i x, l !! i = Some x -> f x = None) -> omap f l = [].
Proof.
  induction l as [|x l IH]; intros Hall; [reflexivity|].
  simpl. rewrite (Hall 0 x eq_refl). apply IH.
  intros i y Hi. exact (Hall (S i) y Hi).
Qed.

(** Where no thread can move and handler is not through: handler waits in
    join, tasks are queued, and every worker is dead. *)
Lemma join_blocked c ev s :
  Reachable c ev s -> stuck c ev s -> finished s = false ->
  main s = MJoin /\ Queue.items (queue s) <> [] /\
  (forall i w, workers s !! i = Some w -> dead w = true).
Proof.
  intros Hr Hst Hf.
  destruct (queue_inv_reachable _ _ _ Hr) as [_ _ Hc].
  assert (Hw : forall i w, workers s !! i = Some w ->
                 match w with
                 | WGet => Queue.items (queue s) = []
                 | WTry _ | WFinally _ _ => False
                 | WDead _ => True
                 end).
  { intros i w Hi. specialize (Hst (TWorker i)). simpl in Hst.
    unfold step_worker in Hst. rewrite Hi in Hst.
    destruct w as [|t|t r|e]; try exact I; try discriminate Hst.
    - unfold Queue.get in Hst.
      destruct (Queue.items (queue s)); [reflexivity|discriminate].
    - destruct (Queue.task_done (queue s)); discriminate Hst. }
  assert (Hheld : held s = []).
  { apply omap_none. intros i w Hi. specialize (Hw i w Hi).
    destruct w; try reflexivity; contradiction. }
  rewrite Hheld in Hc. simpl in Hc.
  specialize (Hst TMain). simpl in Hst. unfold step_main in Hst.
  unfold finished in Hf.
  destruct (main s) as [|xs b r|b r|b objs| |v|e]; try discriminate Hf.
  - destruct (ev !! "Bucket") as [[]|]; try discriminate Hst;
      destruct (ev !! "Prefix") as [[]|]; try discriminate Hst;
      destruct (list_objects_v2 c s0 s1 None); discriminate Hst.
  - destruct xs; discriminate Hst.
  - destruct (Contents r); discriminate Hst.
  - destruct objs; discriminate Hst.
  - assert (Hq : Queue.items (queue s) <> []).
    { unfold Queue.join_ready in Hst.
      destruct (Queue.unfinished_tasks (queue s)); [discriminate Hst|].
      destruct (Queue.items (queue s)); [discriminate Hc|discriminate]. }
    split; [reflexivity|]. split; [exact Hq|].
    intros i w Hi. specialize (Hw i w Hi).
    destruct w; try reflexivity; contradiction.
Qed.

(** No worker is dead while no delete_object has raised. *)
Lemma alive_when_no_delete_raises c ev s i w :
  (forall b k, delete_object c b k = None) ->
  Reachable c ev s -> workers s !! i = Some w -> dead w = false.
Proof.
  intros Hok Hr Hi. destruct w as [| | |e]; try reflexivity.
  destruct (wi_dead _ _ (worker_inv_reachable _ _ _ Hr) _ _ Hi) as [t Ht].
  apply delete_event_listed in Ht.
  apply (di_outcome _ _ (delete_inv_reachable _ _ _ Hr)) in Ht.
  rewrite Hok in Ht. discriminate Ht.
Qed.

(** X6: handler can be blocked for good in one way only.  If a run reaches
    a state where no thread can move and handler has neither returned nor
    raised, then handler is in queue.join(), tasks are still queued, and
    all eight workers have been ended by an exception. *)
Theorem blocked_only_with_all_workers_dead c ev s :
  Reachable c ev s -> stuck c ev s -> finished s = false ->
  main s = MJoin /\ Queue.items (queue s) <> [] /\
  length (workers s) = 8 /\ Forall (fun w => dead w = true) (workers s).
Proof.
  intros Hr Hst Hf.
  destruct (join_blocked _ _ _ Hr Hst Hf) as (Hm & Hq & Hd).
  split; [exact Hm|]. split; [exact Hq|]. split.
  - pose proof (main_inv_reachable _ _ _ Hr) as Hi.
    unfold main_inv, enumerated in Hi. rewrite Hm in Hi.
    destruct Hi as (? & ? & ? & _ & _ & _ & Hl). exact Hl.
  - apply Forall_lookup. exact Hd.
Qed.

Lemma blocked_only_with_all_workers_dead_witness :
  let c := single_page_client 9 always_raises in
  let s := run c the_event (round_robin 40) init in
  main s = MJoin /\ Queue.items (queue s) <> [] /\
  length (workers s) = 8 /\ Forall (fun w => dead w = true) (workers s).
Proof.
  intros c s.
  apply (blocked_only_with_all_workers_dead c the_event s).
  - apply run_reachable, R_init.
  - apply stuck_all_dead.
    + vm_compute. reflexivity.
    + vm_compute. reflexivity.
    + replace (workers s) with (replicate 8 (WDead (ClientError "AccessDenied")))
        by (vm_compute; reflexivity).
      apply Forall_replicate. eexists. reflexivity.
  - vm_compute. reflexivity.
Defined.

(** Either some thread can move or none can. *)
Lemma step_or_stuck c ev s :
  (exists t s', step c ev t s = Some s') \/ stuck c ev s.
Proof.
  destruct (step c ev TMain s) as [s'|] eqn:Hm; [left; eauto|].
  destruct (decide (Exists (fun i => is_Some (step c ev (TWorker i) s))
                           (seq 0 (length (workers s))))) as [He|Hne].
  - apply Exists_exists in He. destruct He as (i & _ & [s' Hs']). left. eauto.
  - right. intros [|i]; [exact Hm|].
    destruct (step c ev (TWorker i) s) as [s'|] eqn:Hs; [|reflexivity].
    exfalso. apply Hne, Exists_exists. exists i. split; [|rewrite Hs; eauto].
    apply elem_of_seq. split; [lia|]. simpl in Hs. unfold step_worker in Hs.
    destruct (workers s !! i) eqn:Hi; [|discriminate Hs].
    apply lookup_lt_Some in Hi. simpl. lia.
Qed.

(** From any state a run can be carried on until handler is through,
    provided no state on the way is blocked. *)
Lemma can_finish c ev :
  (forall s, Reachable c ev s -> finished s = false -> ~ stuck c ev s) ->
  forall n s, weight c ev s <= n -> Reachable c ev s ->
  exists sched, finished (run c ev sched s) = true.
Proof.
  intros Hlive. induction n as [|n IH]; intros s Hw Hr.
  all: destruct (finished s) eqn:Hf; [exists []; exact Hf|].
  all: destruct (step_or_stuck c ev s) as [(t & s' & Hs)|Hst];
    [|destruct (Hlive s Hr Hf Hst)].
  all: pose proof (step_weight _ _ _ _ _ Hs) as Hlt.
  { lia. }
  destruct (IH s') as [sched Hsched]; [lia|eapply R_step; eauto|].
  exists (t :: sched). simpl. rewrite Hs. exact Hsched.
Qed.

(** X7: when no delete_object raises, a run is never blocked before handler
    is through, and from every state it reaches the run can be carried on
    until handler has returned or raised. *)
Theorem completes_when_no_delete_raises c ev s :
  (forall b k, delete_object c b k = None) -> Reachable c ev s ->
  (finished s = false -> exists t s', step c ev t s = Some s') /\
  exists sched, finished (run c ev sched s) = true.
Proof.
  intros Hok Hr.
  assert (Hlive : forall s, Reachable c ev s -> finished s = false -> ~ stuck c ev s).
  { intros s0 Hr0 Hf0 Hst.
    destruct (join_blocked _ _ _ Hr0 Hst Hf0) as (Hm & _ & Hd).
    pose proof (main_inv_reachable _ _ _ Hr0) as Hi.
    unfold main_inv, enumerated, pool_size in Hi. rewrite Hm in Hi.
    destruct Hi as (? & ? & ? & _ & _ & _ & Hl).
    destruct (workers s0) as [|w ws] eqn:Hws; [discriminate Hl|].
    assert (H0 : workers s0 !! 0 = Some w) by (rewrite Hws; reflexivity).
    pose proof (Hd 0 w eq_refl) as Hdead.
    rewrite (alive_when_no_delete_raises c ev s0 0 w Hok Hr0 H0) in Hdead.
    discriminate Hdead. }
  split.
  - intros Hf. destruct (step_or_stuck c ev s) as [Hex|Hst]; [exact Hex|].
    destruct (Hlive s Hr Hf Hst).
  - eapply can_finish; eauto.
Qed.

Lemma completes_when_no_delete_raises_witness :
  (finished init = false ->
   exists t s', step paged_client the_event t init = Some s') /\
  exists sched, finished (run paged_client the_event sched init) = true.
Proof.
  apply (completes_when_no_delete_raises paged_client the_event init).
  - intros b k. reflexivity.
  - apply R_init.
Defined.

Lemma run_path c ev sched : forall s,
  Path c ev (run_steps c ev sched s) s (run c ev sched s).
Proof.
  induction sched as [|t rest IH]; intros s; simpl; [constructor|].
  destruct (step c ev t s) as [s'|] eqn:Hs; [|apply IH].
  econstructor; [exact Hs|apply IH].
Qed.

(** X8: every run is finite.  However the threads are scheduled, a run of
    handler over a listing of k keys takes at most 4k + 13 steps (13 of
    handler's own, and a put, a get, a delete_object and a task_done for
    each key); no thread can be kept busy for ever. *)
Theorem run_length_bounded c (ev : event) n s b p r all :
  Path c ev n init s ->
  ev !! "Bucket" = Some (PyStr b) -> ev !! "Prefix" = Some (PyStr p) ->
  list_objects_v2 c b p None = Ok r -> Contents r = Some all ->
  n + weight c ev s <= 4 * length all + 13.
Proof.
  intros Hpath Hb Hp Hl Hc.
  pose proof (path_weight _ _ _ _ _ Hpath) as Hw.
  assert (Hi : weight c ev init = 4 * length all + 13).
  { unfold weight, main_weight, pool_size. cbn [main init queue workers].
    rewrite Hb, Hp, Hl, Hc. simpl. lia. }
  lia.
Qed.

Lemma run_length_bounded_witness :
  let s := run paged_client the_event (round_robin 30) init in
  Path paged_client the_event 53 init s /\
  53 + weight paged_client the_event s <= 4 * length (objects 1 10) + 13.
Proof.
  intros s.
  assert (Hp : Path paged_client the_event 53 init s).
  { replace 53 with (run_steps paged_client the_event (round_robin 30) init)
      by (vm_compute; reflexivity).
    apply run_path. }
  split; [exact Hp|].
  apply (run_length_bounded paged_client the_event 53 s "bucket" "logs/"
           {| Contents := Some (objects 1 10); IsTruncated := true;
              NextContinuationToken := Some "page2" |} (objects 1 10) Hp);
    reflexivity.
Defined.

End S3RunsProofs.

(** ** Proofs: the functions around cleanup_snapshots *)

Module EbsWorkerProofs.
Import EbsBackup EbsWorker EbsBackupProofs.

(** find gives an index from the start position on, or -1. *)
Lemma str_find_from_range sub s : forall i,
  (0 <= i)%Z -> (str_find_from sub s i = -1 \/ i <= str_find_from sub s i)%Z.
Proof.
  induction s as [|a s IH]; intros i Hi; simpl.
  - destruct (starts_with sub ""); [right; lia|left; reflexivity].
  - destruct (starts_with sub (String a s)); [right; lia|].
    destruct (IH (i + 1)%Z) as [H|H]; [lia|left; exact H|right; lia].
Qed.

(** s.find(sub) is 0 exactly when s starts with sub. *)
Lemma str_find_zero sub s : (str_find sub s =? 0)%Z = starts_with sub s.
Proof.
  unfold str_find. destruct s as [|a s]; cbn [str_find_from].
  - destruct (starts_with sub ""); reflexivity.
  - destruct (starts_with sub (String a s)); [reflexivity|].
    change (0 + 1)%Z with 1%Z.
    destruct (str_find_from_range sub s 1) as [H|H]; [lia| |].
    all: apply Z.eqb_neq; lia.
Qed.

(** The tags the loop keeps are those that pass the test, in order. *)
Lemma scan_tags_new py tags : forall r new r' new',
  scan_tags py tags r new = Ok (r', new') ->
  new' = new ++ List.filter (copied py) tags.
Proof.
  induction tags as [|t rest IH]; intros r new r' new' H; simpl in H.
  - injection H as _ <-. symmetry. apply app_nil_r.
  - simpl. destruct (decide (tag_Key t = "BackupRetentionDays")).
    + destruct (int_of_str py (tag_Value t)); [|discriminate H].
      apply IH in H. rewrite H. destruct (copied py t); [|reflexivity].
      rewrite <- app_assoc. reflexivity.
    + apply IH in H. rewrite H. destruct (copied py t); [|reflexivity].
      rewrite <- app_assoc. reflexivity.
Qed.

Ltac w_unfold :=
  unfold mbind, W_bind, mret, W_ret, throw, lift, tags_of,
    call_describe_volumes, call_create_snapshot, call_create_tags,
    call_cleanup_snapshots in *.

(** Membership in a list that is written out. *)
Ltac explicit_in H :=
  cbn [app] in H;
  repeat first
    [ apply elem_of_nil in H; destruct H
    | apply elem_of_cons in H; destruct H as [H|H]; [try discriminate H|] ].

(** Cleaning adds events of cleanup_snapshots only. *)
Lemma created_tags_not_cleanup vol id tags r (evs : list ebs_event) :
  CreatedTags id tags r ∉ (Cleanup vol <$> evs).
Proof.
  intros Hin. apply list_elem_of_fmap in Hin. destruct Hin as (e & He & _).
  discriminate He.
Qed.

(** X9: the tags snapshot_single puts on the new snapshot are the tags of
    the volume whose key, in lower case, does not start with "backup", in
    the order of the volume's tags; no other create_tags call is made. *)
Theorem copied_tags_exclude_backup py fuel c clock vol_id o h' id tags r :
  snapshot_single py fuel c clock vol_id [] = (o, h') ->
  CreatedTags id tags r ∈ h' ->
  exists vol vs vtags,
    describe_volumes c (ByVolumeId vol_id) = Ok (vol :: vs) /\
    Tags vol = Some vtags /\
    create_snapshot c (VolumeId vol) snapshot_description = Ok id /\
    tags = List.filter
             (fun t => negb (starts_with "backup" (str_lower py (tag_Key t)))) vtags.
Proof.
  unfold snapshot_single. w_unfold. simpl.
  destruct (describe_volumes c (ByVolumeId vol_id)) as [[|vol vs]|e] eqn:Hd; simpl.
  1,3: intros Heq Hin; injection Heq as <- <-; explicit_in Hin.
  destruct (create_snapshot c (VolumeId vol) snapshot_description) as [snap|e] eqn:Hs;
    simpl.
  2: intros Heq Hin; injection Heq as <- <-; explicit_in Hin.
  destruct (Tags vol) as [vtags|] eqn:Ht; simpl.
  2: intros Heq Hin; injection Heq as <- <-; explicit_in Hin.
  destruct (scan_tags py vtags None []) as [[ret new]|e] eqn:Hscan; simpl.
  2: intros Heq Hin; injection Heq as <- <-; explicit_in Hin.
  assert (Hnew : new = List.filter
            (fun t => negb (starts_with "backup" (str_lower py (tag_Key t)))) vtags).
  { apply scan_tags_new in Hscan. simpl in Hscan. subst new.
    apply List.filter_ext. intros t. unfold copied.
    rewrite str_find_zero. reflexivity. }
  assert (Hfin : forall r0 more,
            CreatedTags id tags r
            ∈ [DescribedVolumes (ByVolumeId vol_id) None;
               CreatedSnapshot (VolumeId vol) (Ok snap);
               CreatedTags snap new r0] ++ (Cleanup vol_id <$> more) ->
            exists vol0 vs0 vtags0,
              Ok (vol :: vs) = Ok (vol0 :: vs0) /\ Tags vol0 = Some vtags0 /\
              create_snapshot c (VolumeId vol0) snapshot_description = Ok id /\
              tags = List.filter
                (fun t => negb (starts_with "backup" (str_lower py (tag_Key t))))
                vtags0).
  { intros r0 more Hin. apply elem_of_app in Hin. destruct Hin as [Hin|Hin];
      [|destruct (created_tags_not_cleanup _ _ _ _ _ Hin)].
    explicit_in Hin. injection Hin as -> -> _.
    exists vol, vs, vtags. repeat split; assumption. }
  destruct (create_tags c snap new) as [e|] eqn:Hc; simpl.
  { intros Heq Hin; injection Heq as <- <-.
    apply (Hfin (Some e) []). rewrite app_nil_r. exact Hin. }
  destruct (wants_cleanup ret) as [d|]; simpl.
  2: { intros Heq Hin; injection Heq as <- <-.
       apply (Hfin None []). rewrite app_nil_r. exact Hin. }
  destruct (cleanup_snapshots fuel (snapshots_api c) _ vol_id d) as [[[out|e] evs]|];
    simpl; intros Heq Hin; injection Heq as <- <-.
  - apply (Hfin None evs). exact Hin.
  - apply (Hfin None evs). exact Hin.
  - apply (Hfin None []). rewrite app_nil_r. exact Hin.
Qed.

(** An account with one volume: a Name tag and two backup tags. *)
Lemma copied_tags_exclude_backup_witness :
  let py := ascii_python in
  let r := snapshot_single py 1 one_volume_client (fun _ => 30 * day)%Z "vol-1" [] in
  CreatedTags "snap-new" [ {| tag_Key := "Name"; tag_Value := "data" |} ] None ∈ r.2 /\
  exists vol vs vtags,
    describe_volumes one_volume_client (ByVolumeId "vol-1") = Ok (vol :: vs) /\
    Tags vol = Some vtags /\
    create_snapshot one_volume_client (VolumeId vol) snapshot_description
      = Ok "snap-new" /\
    [ {| tag_Key := "Name"; tag_Value := "data" |} ]
    = List.filter
        (fun t => negb (starts_with "backup" (str_lower py (tag_Key t)))) vtags.
Proof.
  intros py r.
  assert (Hin : CreatedTags "snap-new" [ {| tag_Key := "Name"; tag_Value := "data" |} ]
                  None ∈ r.2).
  { replace r.2 with
      [DescribedVolumes (ByVolumeId "vol-1") None;
       CreatedSnapshot "vol-1" (Ok "snap-new");
       CreatedTags "snap-new" [ {| tag_Key := "Name"; tag_Value := "data" |} ] None;
       Cleanup "vol-1" (Described "vol-1" None None);
       Cleanup "vol-1" (Deleted "snap-1" None);
       Cleanup "vol-1" (Deleted "snap-2" (Some (ClientError "InvalidSnapshot.InUse")))]
      by (vm_compute; reflexivity).
    do 2 apply list_elem_of_further. apply list_elem_of_here. }
  split; [exact Hin|].
  exact (copied_tags_exclude_backup py 1 one_volume_client (fun _ => 30 * day)%Z
           "vol-1" r.1 r.2 _ _ _ (surjective_pairing r) Hin).
Defined.

(** An unreadable BackupRetentionDays stops the loop over the tags. *)
Lemma scan_tags_raises py tags : forall r new,
  (exists t, t ∈ tags /\ tag_Key t = "BackupRetentionDays" /\
             int_of_str py (tag_Value t) = None) ->
  exists e, scan_tags py tags r new = Raise e.
Proof.
  induction tags as [|t rest IH]; intros r new (t0 & Hin & Hk & Hv).
  - by apply elem_of_nil in Hin.
  - simpl. apply elem_of_cons in Hin. destruct Hin as [->|Hin].
    + rewrite decide_True by exact Hk. rewrite Hv. eauto.
    + destruct (decide (tag_Key t = "BackupRetentionDays")).
      * destruct (int_of_str py (tag_Value t)); [|eauto].
        apply IH. eauto.
      * apply IH. eauto.
Qed.

(** A retention that comes out of the loop was there before or was read
    from a BackupRetentionDays tag. *)
Lemma scan_tags_retention py tags : forall r new d new',
  scan_tags py tags r new = Ok (Some d, new') ->
  r = Some d \/
  exists t, t ∈ tags /\ tag_Key t = "BackupRetentionDays" /\
            int_of_str py (tag_Value t) = Some d.
Proof.
  induction tags as [|t rest IH]; intros r new d new' H; simpl in H.
  - injection H as -> _. left. reflexivity.
  - destruct (decide (tag_Key t = "BackupRetentionDays")) as [Hk|Hk].
    + destruct (int_of_str py (tag_Value t)) as [d0|] eqn:Hv; [|discriminate H].
      apply IH in H. destruct H as [[= ->]|(t0 & Hin & Hk0 & Hv0)].
      * right. exists t. split; [left|]. split; assumption.
      * right. exists t0. split; [right; exact Hin|]. split; assumption.
    + apply IH in H. destruct H as [->|(t0 & Hin & Hk0 & Hv0)]; [left; reflexivity|].
      right. exists t0. split; [right; exact Hin|]. split; assumption.
Qed.

(** X10: when the tags of the volume cannot be read (the volume has no
    'Tags', or a BackupRetentionDays value is no integer), snapshot_single
    raises after the snapshot has been created: the snapshot exists, no tag
    is put on it and no cleanup is run. *)
Theorem unreadable_tags_leave_snapshot_untagged py fuel c clock vol_id h vol vs id :
  describe_volumes c (ByVolumeId vol_id) = Ok (vol :: vs) ->
  create_snapshot c (VolumeId vol) snapshot_description = Ok id ->
  match Tags vol with
  | None => True
  | Some vtags =>
      exists t, t ∈ vtags /\ tag_Key t = "BackupRetentionDays" /\
                int_of_str py (tag_Value t) = None
  end ->
  exists e,
    snapshot_single py fuel c clock vol_id h
    = (Raised (Exn e),
       h ++ [DescribedVolumes (ByVolumeId vol_id) None;
             CreatedSnapshot (VolumeId vol) (Ok id)]).
Proof.
  intros Hd Hs Ht. unfold snapshot_single. w_unfold. rewrite Hd. simpl.
  rewrite Hs. simpl. rewrite <- app_assoc. simpl.
  destruct (Tags vol) as [vtags|]; simpl.
  - destruct (scan_tags_raises py vtags None [] Ht) as [e He].
    rewrite He. simpl. eauto.
  - eauto.
Qed.

Lemma unreadable_tags_leave_snapshot_untagged_witness :
  let vol := {| VolumeId := "vol-2"; Tags := None |} in
  let c := {| snapshots_api := quiet_client;
              describe_volumes := fun _ => Ok [vol];
              create_snapshot := fun _ _ => Ok "snap-new";
              create_tags := fun _ _ => None |} in
  exists e,
    snapshot_single ascii_python 1 c (fun _ => 0%Z) "vol-2" []
    = (Raised (Exn e),
       [] ++ [DescribedVolumes (ByVolumeId "vol-2") None;
              CreatedSnapshot "vol-2" (Ok "snap-new")]).
Proof.
  intros vol c.
  apply (unreadable_tags_leave_snapshot_untagged ascii_python 1 c (fun _ => 0%Z)
           "vol-2" [] vol [] "snap-new"); [reflexivity|reflexivity|exact I].
Defined.

Lemma cleanup_not_other id (x : backup_event) vol (evs : list ebs_event) e :
  x ∈ (Cleanup vol <$> evs) -> x = Cleanup id e -> id = vol.
Proof.
  intros Hin ->. apply list_elem_of_fmap in Hin. destruct Hin as (e' & He & _).
  injection He as -> _. reflexivity.
Qed.

(** X11: snapshot_single lists or deletes snapshots only for the volume it
    was called for, and only when a BackupRetentionDays tag of the volume
    reads as a positive integer; without such a tag, or with a value of 0 or
    less, it removes nothing. *)
Theorem single_cleans_only_on_positive_retention py fuel c clock vol_id o h' v e :
  snapshot_single py fuel c clock vol_id [] = (o, h') ->
  Cleanup v e ∈ h' ->
  v = vol_id /\
  exists vol vs vtags t d,
    describe_volumes c (ByVolumeId vol_id) = Ok (vol :: vs) /\
    Tags vol = Some vtags /\ t ∈ vtags /\
    tag_Key t = "BackupRetentionDays" /\
    int_of_str py (tag_Value t) = Some d /\ (0 < d)%Z.
Proof.
  unfold snapshot_single. w_unfold. simpl.
  destruct (describe_volumes c (ByVolumeId vol_id)) as [[|vol vs]|e0] eqn:Hd; simpl.
  1,3: intros Heq Hin; injection Heq as <- <-; explicit_in Hin.
  destruct (create_snapshot c (VolumeId vol) snapshot_description) as [snap|e0] eqn:Hs;
    simpl.
  2: intros Heq Hin; injection Heq as <- <-; explicit_in Hin.
  destruct (Tags vol) as [vtags|] eqn:Ht; simpl.
  2: intros Heq Hin; injection Heq as <- <-; explicit_in Hin.
  destruct (scan_tags py vtags None []) as [[ret new]|e0] eqn:Hscan; simpl.
  2: intros Heq Hin; injection Heq as <- <-; explicit_in Hin.
  destruct (create_tags c snap new) as [e0|] eqn:Hc; simpl.
  1: intros Heq Hin; injection Heq as <- <-; explicit_in Hin.
  unfold wants_cleanup. destruct ret as [d|]; simpl.
  2: intros Heq Hin; injection Heq as <- <-; explicit_in Hin.
  destruct (d >? 0)%Z eqn:Hpos; simpl.
  2: intros Heq Hin; injection Heq as <- <-; explicit_in Hin.
  assert (Hfin : forall evs : list ebs_event,
            Cleanup v e
            ∈ [DescribedVolumes (ByVolumeId vol_id) None;
               CreatedSnapshot (VolumeId vol) (Ok snap);
               CreatedTags snap new None] ++ (Cleanup vol_id <$> evs) ->
            v = vol_id /\
            exists vol0 vs0 vtags0 t d0,
              Ok (vol :: vs) = Ok (vol0 :: vs0) /\
              Tags vol0 = Some vtags0 /\ t ∈ vtags0 /\
              tag_Key t = "BackupRetentionDays" /\
              int_of_str py (tag_Value t) = Some d0 /\ (0 < d0)%Z).
  { intros evs Hin. apply elem_of_app in Hin. destruct Hin as [Hin|Hin];
      [explicit_in Hin|].
    split; [eapply cleanup_not_other; eauto|].
    destruct (scan_tags_retention _ _ _ _ _ _ Hscan) as [Hr|(t & Hin' & Hk & Hv)];
      [discriminate Hr|].
    exists vol, vs, vtags, t, d. repeat split; try assumption. lia. }
  destruct (cleanup_snapshots fuel (snapshots_api c) _ vol_id d) as [[[out|e0] evs]|];
    simpl; intros Heq Hin; injection Heq as <- <-.
  - apply (Hfin evs). exact Hin.
  - apply (Hfin evs). exact Hin.
  - explicit_in Hin.
Qed.

Lemma single_cleans_only_on_positive_retention_witness :
  let r := snapshot_single ascii_python 1 one_volume_client (fun _ => 30 * day)%Z
             "vol-1" [] in
  Cleanup "vol-1" (Deleted "snap-1" None) ∈ r.2 /\
  "vol-1" = "vol-1" /\
  exists vol vs vtags t d,
    describe_volumes one_volume_client (ByVolumeId "vol-1") = Ok (vol :: vs) /\
    Tags vol = Some vtags /\ t ∈ vtags /\
    tag_Key t = "BackupRetentionDays" /\
    int_of_str ascii_python (tag_Value t) = Some d /\ (0 < d)%Z.
Proof.
  intros r.
  assert (Hin : Cleanup "vol-1" (Deleted "snap-1" None) ∈ r.2).
  { replace r.2 with
      [DescribedVolumes (ByVolumeId "vol-1") None;
       CreatedSnapshot "vol-1" (Ok "snap-new");
       CreatedTags "snap-new" [ {| tag_Key := "Name"; tag_Value := "data" |} ] None;
       Cleanup "vol-1" (Described "vol-1" None None);
       Cleanup "vol-1" (Deleted "snap-1" None);
       Cleanup "vol-1" (Deleted "snap-2" (Some (ClientError "InvalidSnapshot.InUse")))]
      by (vm_compute; reflexivity).
    do 4 apply list_elem_of_further. apply list_elem_of_here. }
  split; [exact Hin|].
  exact (single_cleans_only_on_positive_retention ascii_python 1 one_volume_client
           (fun _ => 30 * day)%Z "vol-1" r.1 r.2 _ _ (surjective_pairing r) Hin).
Defined.

Lemma scan_retention_default py tags d :
  (forall t, t ∈ tags -> tag_Key t <> "BackupRetentionDays") ->
  scan_retention py tags d = Ok d.
Proof.
  induction tags as [|t rest IH]; intros Hno; [reflexivity|].
  simpl. rewrite decide_False by (apply Hno; left).
  apply IH. intros t0 Hin. apply Hno. right. exact Hin.
Qed.

(** X12: cleanup_all cleans a volume that has no BackupRetentionDays tag
    with the default retention of 21 days. *)
Theorem cleanup_all_default_retention py fuel c clock vol vtags h :
  Tags vol = Some vtags ->
  (forall t, t ∈ vtags -> tag_Key t <> "BackupRetentionDays") ->
  cleanup_volume py fuel c clock vol h
  = (out ← call_cleanup_snapshots fuel c clock (VolumeId vol) 21; mret (Some out)) h.
Proof.
  intros Ht Hno. unfold cleanup_volume, tags_of, lift. rewrite Ht.
  unfold mbind at 1 2, W_bind, mret at 1, W_ret; simpl.
  rewrite (scan_retention_default py vtags _ Hno). reflexivity.
Qed.

Lemma cleanup_all_default_retention_witness :
  let vol := {| VolumeId := "vol-3";
                Tags := Some [ {| tag_Key := "backup"; tag_Value := "yes" |} ] |} in
  cleanup_volume ascii_python 1 one_volume_client (fun _ => 30 * day)%Z vol []
  = (out ← call_cleanup_snapshots 1 one_volume_client (fun _ => 30 * day)%Z "vol-3" 21;
     mret (Some out)) [].
Proof.
  intros vol.
  apply (cleanup_all_default_retention ascii_python 1 one_volume_client
           (fun _ => 30 * day)%Z vol [ {| tag_Key := "backup"; tag_Value := "yes" |} ] []).
  - reflexivity.
  - intros t Hin. apply list_elem_of_singleton in Hin. subst t. discriminate.
Defined.

(** More than retention_days whole days: at least retention_days + 1 of
    them. *)
Lemma timedelta_days_gt now start ret :
  (timedelta_days now start > ret)%Z <->
  ((ret + 1) * 86400000000 <= now - start)%Z.
Proof.
  unfold timedelta_days. split; intros H.
  - assert (Hd : (ret + 1 <= (now - start) / 86400000000)%Z) by lia.
    pose proof (Z.mul_div_le (now - start) 86400000000 ltac:(lia)). nia.
  - assert (Hd : (ret + 1 <= (now - start) / 86400000000)%Z).
    { apply Z.div_le_lower_bound; lia. }
    lia.
Qed.

Lemma scan_page_deleted c now ret snaps : forall out h id r,
  Deleted id r ∈ (scan_page c now ret snaps out h).1.2 ->
  Deleted id r ∈ h \/
  exists snap, snap ∈ snaps /\ SnapshotId snap = id /\
               (timedelta_days now (StartTime snap) > ret)%Z.
Proof.
  induction snaps as [|snap rest IH]; intros out h id r Hin; simpl in Hin.
  - left. exact Hin.
  - destruct (timedelta_days now (StartTime snap) >? ret)%Z eqn:Hgt.
    + assert (Hold : exists s0, s0 ∈ snap :: rest /\ SnapshotId s0 = SnapshotId snap /\
                                (timedelta_days now (StartTime s0) > ret)%Z).
      { exists snap. split; [left|]. split; [reflexivity|]. lia. }
      destruct (delete_snapshot c (SnapshotId snap)) as [e|]; simpl in Hin.
      * apply elem_of_app in Hin. destruct Hin as [Hin|Hin]; [left; exact Hin|].
        apply list_elem_of_singleton in Hin. injection Hin as -> _.
        right. exact Hold.
      * apply IH in Hin. destruct Hin as [Hin|(s0 & Hs0 & Hid & Hage)].
        -- apply elem_of_app in Hin. destruct Hin as [Hin|Hin]; [left; exact Hin|].
           apply list_elem_of_singleton in Hin. injection Hin as -> _.
           right. exact Hold.
        -- right. exists s0. split; [right; exact Hs0|]. split; assumption.
    + apply IH in Hin. destruct Hin as [Hin|(s0 & Hs0 & Hid & Hage)].
      * apply elem_of_app in Hin. destruct Hin as [Hin|Hin]; [left; exact Hin|].
        apply list_elem_of_singleton in Hin. discriminate Hin.
      * right. exists s0. split; [right; exact Hs0|]. split; assumption.
Qed.

Lemma cleanup_loop_deleted c now vol ret fuel : forall response out h x id r,
  cleanup_loop fuel c now vol ret response out h = Some x ->
  Deleted id r ∈ x.1.2 ->
  Deleted id r ∈ h \/
  exists resp snap,
    (resp = response \/ exists tok, describe_snapshots c vol (Some tok) = Ok resp) /\
    snap ∈ Snapshots resp /\ SnapshotId snap = id /\
    (timedelta_days now (StartTime snap) > ret)%Z.
Proof.
  induction fuel as [|fuel IH]; intros response out h x id r Hx Hin; [discriminate|].
  cbn [cleanup_loop] in Hx.
  pose proof (scan_page_deleted c now ret (Snapshots response) out h id r) as Hpage.
  destruct (scan_page c now ret (Snapshots response) out h) as [[out' h'] oe].
  simpl in Hpage.
  assert (Hhere : Deleted id r ∈ h' ->
            Deleted id r ∈ h \/
            exists resp snap,
              (resp = response \/
               exists tok, describe_snapshots c vol (Some tok) = Ok resp) /\
              snap ∈ Snapshots resp /\ SnapshotId snap = id /\
              (timedelta_days now (StartTime snap) > ret)%Z).
  { intros H. destruct (Hpage H) as [H0|(snap & Hs & Hid & Hage)]; [left; exact H0|].
    right. exists response, snap. split; [left; reflexivity|].
    split; [exact Hs|]. split; assumption. }
  destruct oe as [e|].
  { injection Hx as <-. apply Hhere. exact Hin. }
  destruct (next_token response) as [tok|].
  2: { injection Hx as <-. apply Hhere. exact Hin. }
  destruct (describe_snapshots c vol (Some tok)) as [response'|e] eqn:Hd.
  - destruct (IH _ _ _ _ _ _ Hx Hin) as [H0|(resp & snap & Hresp & Hs & Hid & Hage)].
    + apply elem_of_app in H0. destruct H0 as [H0|H0]; [apply Hhere; exact H0|].
      apply list_elem_of_singleton in H0. discriminate H0.
    + right. exists resp, snap. split; [|split; [exact Hs|split; assumption]].
      right. destruct Hresp as [->|Htok]; [eauto|exact Htok].
  - injection Hx as <-. simpl in Hin.
    apply elem_of_app in Hin. destruct Hin as [Hin|Hin]; [apply Hhere; exact Hin|].
    apply list_elem_of_singleton in Hin. discriminate Hin.
Qed.

(** X13: cleanup_snapshots calls delete_snapshot only for a snapshot that
    describe_snapshots listed for the volume and that is at least
    retention_days + 1 whole days old at the time of the call; a snapshot
    whose age is within retention_days days (up to a day more, less a
    microsecond) is never deleted. *)
Theorem deletes_only_old_snapshots fuel c now vol ret res h id r :
  cleanup_snapshots fuel c now vol ret = Some (res, h) ->
  Deleted id r ∈ h ->
  exists tok resp snap,
    describe_snapshots c vol tok = Ok resp /\ snap ∈ Snapshots resp /\
    SnapshotId snap = id /\
    ((ret + 1) * 86400000000 <= now - StartTime snap)%Z.
Proof.
  unfold cleanup_snapshots. intros H Hin.
  destruct (describe_snapshots c vol None) as [response|e] eqn:Hd.
  2: { injection H as _ <-. apply list_elem_of_singleton in Hin. discriminate Hin. }
  destruct (cleanup_loop fuel c now vol ret response _ _) as [[[out h'] oe]|] eqn:Hl;
    [|discriminate H].
  injection H as _ <-.
  destruct (cleanup_loop_deleted _ _ _ _ _ _ _ _ _ id r Hl Hin)
    as [H0|(resp & snap & Hresp & Hs & Hid & Hage)].
  - apply list_elem_of_singleton in H0. discriminate H0.
  - apply timedelta_days_gt in Hage.
    destruct Hresp as [->|[tok Htok]].
    + exists None, response, snap. repeat split; assumption.
    + exists (Some tok), resp, snap. repeat split; assumption.
Qed.

Lemma deletes_only_old_snapshots_witness :
  exists tok resp snap,
    describe_snapshots in_use_client "vol-1" tok = Ok resp /\
    snap ∈ Snapshots resp /\ SnapshotId snap = "snap-1" /\
    ((21 + 1) * 86400000000 <= 30 * day - StartTime snap)%Z.
Proof.
  apply (deletes_only_old_snapshots 1 in_use_client (30 * day)%Z "vol-1" 21
           (Ok {| removed := 1; retained := 0 |})
           [Described "vol-1" None None; Deleted "snap-1" None;
            Deleted "snap-2" (Some (ClientError "InvalidSnapshot.InUse"))]
           "snap-1" None).
  - vm_compute. reflexivity.
  - apply list_elem_of_further, list_elem_of_here.
Defined.

Lemma scan_page_all_deleted c now ret snaps : forall out h,
  (forall snap, snap ∈ snaps -> expired now ret snap = true ->
                delete_snapshot c (SnapshotId snap) = None) ->
  exists h',
    scan_page c now ret snaps out h
    = ({| removed := removed out + length (List.filter (expired now ret) snaps);
          retained := retained out
                      + length (List.filter (fun s => negb (expired now ret s)) snaps) |},
       h', None).
Proof.
  induction snaps as [|snap rest IH]; intros out h Hok.
  - exists h. simpl. rewrite !Nat.add_0_r. destruct out. reflexivity.
  - simpl.
    change (timedelta_days now (StartTime snap) >? ret)%Z with (expired now ret snap).
    destruct (expired now ret snap) eqn:Hgt; simpl.
    + rewrite (Hok snap) by (first [left|exact Hgt]).
      destruct (IH {| removed := removed out + 1; retained := retained out |}
                   (h ++ [Deleted (SnapshotId snap) None])) as [h' Hh'].
      { intros s0 Hin. apply Hok. right. exact Hin. }
      exists h'. rewrite Hh'. simpl. f_equal. f_equal. f_equal; lia.
    + destruct (IH {| removed := removed out; retained := retained out + 1 |}
                   (h ++ [Kept (SnapshotId snap)])) as [h' Hh'].
      { intros s0 Hin. apply Hok. right. exact Hin. }
      exists h'. rewrite Hh'. simpl. f_equal. f_equal. f_equal; lia.
Qed.

(** X14: for a volume whose snapshots come on one page and whose deletes go
    through, cleanup_snapshots returns the number of snapshots older than
    the retention as removed and the number of the others as retained; the
    two add up to the number of snapshots listed. *)
Theorem single_page_counts fuel c now vol ret resp :
  describe_snapshots c vol None = Ok resp -> next_token resp = None ->
  (forall snap, snap ∈ Snapshots resp -> expired now ret snap = true ->
                delete_snapshot c (SnapshotId snap) = None) ->
  exists out h,
    cleanup_snapshots (S fuel) c now vol ret = Some (Ok out, h) /\
    removed out = length (List.filter (expired now ret) (Snapshots resp)) /\
    retained out
    = length (List.filter (fun s => negb (expired now ret s)) (Snapshots resp)) /\
    removed out + retained out = length (Snapshots resp).
Proof.
  intros Hd Hn Hok. unfold cleanup_snapshots. rewrite Hd. cbn [cleanup_loop].
  destruct (scan_page_all_deleted c now ret (Snapshots resp)
              {| removed := 0; retained := 0 |} [Described vol None None] Hok)
    as [h' Hh'].
  rewrite Hh', Hn. eexists _, _. split; [reflexivity|]. simpl.
  split; [reflexivity|]. split; [reflexivity|].
  apply S3DeleteProofs.filter_split_length.
Qed.

Lemma single_page_counts_witness :
  exists out h,
    cleanup_snapshots 1 quiet_client (30 * day) "vol-1" 21 = Some (Ok out, h) /\
    removed out
    = length (List.filter (expired (30 * day) 21) (take 1 old_snapshots)) /\
    retained out
    = length (List.filter (fun s => negb (expired (30 * day) 21 s))
                (take 1 old_snapshots)) /\
    removed out + retained out = length (take 1 old_snapshots).
Proof.
  apply (single_page_counts 0 quiet_client (30 * day)%Z "vol-1" 21
           {| Snapshots := take 1 old_snapshots; NextToken := None |}).
  - reflexivity.
  - reflexivity.
  - intros snap _ _. reflexivity.
Defined.

Lemma adds_ret {A} P (a : A) : adds P (mret a).
Proof. intros h. exists []. split; [symmetry; apply app_nil_r|constructor]. Qed.

Lemma adds_throw {A} P e : adds P (@throw A e).
Proof. intros h. exists []. split; [symmetry; apply app_nil_r|constructor]. Qed.

Lemma adds_bind {A B} P (m : W A) (f : A -> W B) :
  adds P m -> (forall a, adds P (f a)) -> adds P (mbind f m).
Proof.
  intros Hm Hf h. unfold mbind, W_bind.
  destruct (Hm h) as (more & Hh & HP).
  destruct (m h) as [[a|e|] h1]; simpl in Hh; subst h1.
  - destruct (Hf a (h ++ more)) as (more' & Hh' & HP').
    exists (more ++ more'). rewrite Hh', app_assoc. split; [reflexivity|].
    apply Forall_app. split; assumption.
  - exists more. split; [reflexivity|exact HP].
  - exists more. split; [reflexivity|exact HP].
Qed.

Lemma adds_cleanup fuel c clock vol d :
  adds cleaning_only (call_cleanup_snapshots fuel c clock vol d).
Proof.
  intros h. unfold call_cleanup_snapshots.
  destruct (cleanup_snapshots fuel (snapshots_api c) _ vol d) as [[[out|e] evs]|].
  1,2: exists (Cleanup vol <$> evs); split; [reflexivity|];
       apply Forall_fmap, Forall_forall; intros x _; exact I.
  exists []. split; [symmetry; apply app_nil_r|constructor].
Qed.

Lemma adds_cleanup_volume py fuel c clock vol :
  adds cleaning_only (cleanup_volume py fuel c clock vol).
Proof.
  unfold cleanup_volume, tags_of, lift.
  apply adds_bind.
  { destruct (Tags vol); [apply adds_ret|apply adds_throw]. }
  intros tags. apply adds_bind.
  { destruct (scan_retention py tags DEFAULT_RETENTION_PERIOD);
      [apply adds_ret|apply adds_throw]. }
  intros d. destruct (wants_cleanup (Some d)); [|apply adds_ret].
  apply adds_bind; [apply adds_cleanup|intros; apply adds_ret].
Qed.

Lemma adds_for_volumes {A} P vols (body : volume -> W A) :
  (forall vol, adds P (body vol)) -> forall m, adds P (for_volumes vols body m).
Proof.
  intros Hb. induction vols as [|vol rest IH]; intros m; simpl.
  - apply adds_ret.
  - apply adds_bind; [apply Hb|]. intros a. apply IH.
Qed.

(** The keys of the dict are the ids of the volumes gone through. *)
Lemma for_volumes_keys {A} vols (body : volume -> W A) : forall m h m',
  (for_volumes vols body m h).1 = Returned m' ->
  dom m' = dom m ∪ list_to_set (VolumeId <$> vols).
Proof.
  induction vols as [|vol rest IH]; intros m h m' H; simpl in H.
  - injection H as <-. simpl. symmetry. apply (right_id_L ∅ (∪)).
  - unfold mbind, W_bind in H.
    destruct (body vol h) as [[a|e|] h1]; simpl in H; try discriminate H.
    apply IH in H. rewrite H, dom_insert_L. simpl.
    apply set_eq. intros x. rewrite !elem_of_union. tauto.
Qed.

Lemma adds_describe_volumes P c f :
  (forall r, P (DescribedVolumes f r)) -> adds P (call_describe_volumes c f).
Proof.
  intros HP h. unfold call_describe_volumes.
  destruct (describe_volumes c f); eexists; (split; [reflexivity|]);
    (constructor; [apply HP|constructor]).
Qed.

Lemma adds_cleanup_all py fuel c clock :
  adds cleaning_only (cleanup_all py fuel c clock).
Proof.
  apply (adds_bind cleaning_only).
  - apply adds_describe_volumes. intros r. exact I.
  - intros vols. apply adds_for_volumes. apply adds_cleanup_volume.
Qed.

(** X15: cleanup_all creates no snapshot and no tag (it only lists volumes
    and runs cleanup_snapshots), and the dict it returns has one key for
    each volume that describe_volumes gave for the backup tag. *)
Theorem cleanup_all_only_cleans py fuel c clock h :
  (exists more,
     (cleanup_all py fuel c clock h).2 = h ++ more /\ Forall cleaning_only more) /\
  (forall m, (cleanup_all py fuel c clock h).1 = Returned m ->
     exists vols,
       describe_volumes c backup_volumes = Ok vols /\
       dom m = list_to_set (VolumeId <$> vols)).
Proof.
  split.
  - apply adds_cleanup_all.
  - intros m. unfold cleanup_all, mbind at 1, W_bind, call_describe_volumes.
    destruct (describe_volumes c backup_volumes) as [vols|e]; [|discriminate].
    intros H. exists vols. split; [reflexivity|].
    apply for_volumes_keys in H. rewrite H, dom_empty_L.
    apply (left_id_L ∅ (∪)).
Qed.



Lemma adds_cleanup_any P fuel c clock vol d :
  (forall e, P (Cleanup vol e)) -> adds P (call_cleanup_snapshots fuel c clock vol d).
Proof.
  intros HP h. unfold call_cleanup_snapshots.
  destruct (cleanup_snapshots fuel (snapshots_api c) _ vol d) as [[[out|e] evs]|].
  1,2: exists (Cleanup vol <$> evs); split; [reflexivity|];
       apply Forall_fmap, Forall_forall; intros x _; apply HP.
  exists []. split; [symmetry; apply app_nil_r|constructor].
Qed.

Lemma adds_snapshot_single py fuel c clock vol_id :
  adds (snapshot_of c vol_id) (snapshot_single py fuel c clock vol_id).
Proof.
  intros h. unfold snapshot_single, mbind at 1, W_bind, call_describe_volumes.
  destruct (describe_volumes c (ByVolumeId vol_id)) as [[|vol vs]|e] eqn:E.
  - eexists. split; [reflexivity|]. constructor; [exact I|constructor].
  - cbv beta iota.
    match goal with
    | |- exists more, (?k ?h1).2 = _ /\ _ =>
        assert (Hk : adds (snapshot_of c vol_id) k)
    end.
    { apply adds_bind.
      { intros h0. eexists. split; [reflexivity|].
        constructor; [|constructor]. exists vol, vs. split; [exact E|reflexivity]. }
      intros snap. apply adds_bind.
      { unfold tags_of. destruct (Tags vol); [apply adds_ret|apply adds_throw]. }
      intros tags. apply adds_bind.
      { unfold lift. destruct (scan_tags py tags None []);
          [apply adds_ret|apply adds_throw]. }
      intros scanned. apply adds_bind.
      { intros h0. eexists. split; [reflexivity|].
        constructor; [exact I|constructor]. }
      intros _. destruct (wants_cleanup scanned.1); [|apply adds_ret].
      apply adds_bind; [|intros; apply adds_ret].
      apply adds_cleanup_any. intros e. exact I. }
    destruct (Hk (h ++ [DescribedVolumes (ByVolumeId vol_id) None]))
      as (more & Hm & HP).
    exists (DescribedVolumes (ByVolumeId vol_id) None :: more).
    rewrite Hm, <- app_assoc. split; [reflexivity|].
    constructor; [exact I|exact HP].
  - eexists. split; [reflexivity|]. constructor; [exact I|constructor].
Qed.

Lemma adds_for_volumes_in {A} P vols (body : volume -> W A) :
  (forall vol, vol ∈ vols -> adds P (body vol)) ->
  forall m, adds P (for_volumes vols body m).
Proof.
  induction vols as [|vol rest IH]; intros Hb m; simpl.
  - apply adds_ret.
  - apply adds_bind; [apply Hb; left|]. intros a. apply IH.
    intros v Hin. apply Hb. right. exact Hin.
Qed.

Lemma adds_mono {A} (P Q : backup_event -> Prop) (m : W A) :
  (forall ev, P ev -> Q ev) -> adds P m -> adds Q m.
Proof.
  intros HPQ Hm h. destruct (Hm h) as (more & Hh & HP).
  exists more. split; [exact Hh|]. eapply Forall_impl; eassumption.
Qed.

(** X17: snapshot_all creates snapshots only for volumes that
    describe_volumes gave for the tag keys backup and Backup: each snapshot
    is of the first volume that a second describe_volumes, by the id of such
    a volume, gives. *)
Theorem snapshot_all_only_backup_volumes py fuel c clock o h' v r :
  snapshot_all py fuel c clock [] = (o, h') ->
  CreatedSnapshot v r ∈ h' ->
  exists vols listed vol vs,
    describe_volumes c backup_volumes = Ok vols /\ listed ∈ vols /\
    describe_volumes c (ByVolumeId (VolumeId listed)) = Ok (vol :: vs) /\
    v = VolumeId vol.
Proof.
  intros H Hin.
  unfold snapshot_all, mbind at 1, W_bind, call_describe_volumes in H.
  destruct (describe_volumes c backup_volumes) as [vols|e] eqn:E.
  - cbv beta iota in H.
    pose proof (adds_for_volumes_in (snapshot_of_listed c vols) vols
                  (fun vol => snapshot_single py fuel c clock (VolumeId vol))) as Hall.
    destruct (Hall
                (fun vol Hvol =>
                   adds_mono (snapshot_of c (VolumeId vol)) (snapshot_of_listed c vols) _
                     (fun ev =>
                        match ev return snapshot_of c (VolumeId vol) ev ->
                                        snapshot_of_listed c vols ev with
                        | CreatedSnapshot v0 r0 =>
                            fun Hs => ex_intro _ vol (conj Hvol Hs)
                        | _ => fun _ => I
                        end)
                     (adds_snapshot_single py fuel c clock (VolumeId vol)))
                ∅ ([] ++ [DescribedVolumes backup_volumes None]))
      as (more & Hm & HP).
    rewrite H in Hm. simpl in Hm. subst h'.
    apply elem_of_cons in Hin. destruct Hin as [Hin|Hin]; [discriminate Hin|].
    rewrite Forall_forall in HP. specialize (HP _ Hin).
    destruct HP as (listed & Hl & vol & vs & Hd & Hv).
    exists vols, listed, vol, vs. repeat split; assumption.
  - injection H as _ <-. simpl in Hin.
    apply list_elem_of_singleton in Hin. discriminate Hin.
Qed.

Lemma snapshot_all_only_backup_volumes_witness :
  let r := snapshot_all ascii_python 1 one_volume_client (fun _ => 30 * day)%Z [] in
  CreatedSnapshot "vol-1" (Ok "snap-new") ∈ r.2 /\
  exists vols listed vol vs,
    describe_volumes one_volume_client backup_volumes = Ok vols /\ listed ∈ vols /\
    describe_volumes one_volume_client (ByVolumeId (VolumeId listed)) = Ok (vol :: vs) /\
    "vol-1" = VolumeId vol.
Proof.
  intros r.
  assert (Hin : CreatedSnapshot "vol-1" (Ok "snap-new") ∈ r.2).
  { replace r.2 with
      [DescribedVolumes backup_volumes None;
       DescribedVolumes (ByVolumeId "vol-1") None;
       CreatedSnapshot "vol-1" (Ok "snap-new");
       CreatedTags "snap-new" [ {| tag_Key := "Name"; tag_Value := "data" |} ] None;
       Cleanup "vol-1" (Described "vol-1" None None);
       Cleanup "vol-1" (Deleted "snap-1" None);
       Cleanup "vol-1" (Deleted "snap-2" (Some (ClientError "InvalidSnapshot.InUse")))]
      by (vm_compute; reflexivity).
    do 2 apply list_elem_of_further. apply list_elem_of_here. }
  split; [exact Hin|].
  exact (snapshot_all_only_backup_volumes ascii_python 1 one_volume_client
           (fun _ => 30 * day)%Z r.1 r.2 _ _ (surjective_pairing r) Hin).
Defined.

End EbsWorkerProofs.

(** ** Proofs: what find_orphans keeps and removes *)

Module SgOrphansProofs.
Import SgAudit SgOrphans.

Lemma bind_val {A B} (m : M A) (f : A -> M B) log b log' :
  mbind f m log = (Val b, log') ->
  exists a log1, m log = (Val a, log1) /\ f a log1 = (Val b, log').
Proof.
  unfold mbind, M_bind. destruct (m log) as [[a|e|] log1]; intros H;
    [eauto|discriminate H|discriminate H].
Qed.

Lemma call_val {A} c (reply : result A) log a log' :
  call c reply log = (Val a, log') -> reply = Ok a /\ log' = log ++ [Call c].
Proof.
  unfold call. destruct reply; intros H; [|discriminate H].
  injection H as -> <-. split; reflexivity.
Qed.

(** *** shrinks *)

Lemma shrinks_ret groups : shrinks groups (mret groups).
Proof. intros log groups' H. injection H as <-. reflexivity. Qed.

Lemma shrinks_bind groups (m : M sg_list) (f : sg_list -> M sg_list) :
  shrinks groups m -> (forall g1, shrinks g1 (f g1)) -> shrinks groups (mbind f m).
Proof.
  intros Hm Hf log groups' H.
  destruct (mbind f m log) as [o log'] eqn:Hb. simpl in H. subst o.
  apply bind_val in Hb. destruct Hb as (g1 & log1 & H1 & H2).
  transitivity g1.
  - apply (Hf g1 log1). rewrite H2. reflexivity.
  - apply (Hm log). rewrite H1. reflexivity.
Qed.

Lemma shrinks_bind_any {A} groups (m : M A) (f : A -> M sg_list) :
  (forall a, shrinks groups (f a)) -> shrinks groups (mbind f m).
Proof.
  intros Hf log groups' H.
  destruct (mbind f m log) as [o log'] eqn:Hb. simpl in H. subst o.
  apply bind_val in Hb. destruct Hb as (a & log1 & H1 & H2).
  apply (Hf a log1). rewrite H2. reflexivity.
Qed.

Lemma shrinks_discard svc g groups : shrinks groups (discard svc g groups).
Proof.
  intros log groups'. unfold discard. destruct (groups !! g); simpl.
  - intros [= <-]. apply delete_subseteq.
  - intros [= <-]. reflexivity.
Qed.

Lemma shrinks_for_each {A} (xs : list A) body :
  (forall x groups, shrinks groups (body x groups)) ->
  forall groups, shrinks groups (for_each xs body groups).
Proof.
  intros Hb. induction xs as [|x rest IH]; intros groups; simpl.
  - apply shrinks_ret.
  - apply shrinks_bind; [apply Hb|exact IH].
Qed.

Lemma shrinks_paginate {P} fuel (fetch : option string -> M P) next body :
  (forall page groups, shrinks groups (body page groups)) ->
  forall page groups, shrinks groups (paginate fuel fetch next body page groups).
Proof.
  intros Hb. induction fuel as [|fuel IH]; intros page groups; simpl.
  - intros log groups' H. discriminate H.
  - apply shrinks_bind; [apply Hb|]. intros g1.
    destruct (truthy (next page)); [|apply shrinks_ret].
    apply shrinks_bind_any. intros page'. apply IH.
Qed.

Ltac shrinks_tac :=
  repeat first
    [ apply shrinks_ret
    | apply shrinks_discard
    | apply shrinks_paginate
    | apply shrinks_for_each
    | apply shrinks_bind_any
    | progress intros
    | match goal with |- shrinks _ (match ?x with _ => _ end) => destruct x end ].

Lemma paginate_sub {P} fuel (fetch : option string -> M P) next body page g log g' log' :
  paginate fuel fetch next body page g log = (Val g', log') ->
  (forall page groups, shrinks groups (body page groups)) ->
  g' ⊆ g.
Proof.
  intros H Hb. apply (shrinks_paginate fuel fetch next body Hb page g log).
  rewrite H. reflexivity.
Qed.

(** What get_security_group_list builds from the response. *)
Lemma listed_groups_lookup described : forall (m0 : sg_list) g sg,
  foldl (fun groups d => <[GroupId d := listed_group d]> groups) m0 described !! g
  = Some sg ->
  m0 !! g = Some sg \/
  exists d, d ∈ described /\ GroupId d = g /\ sg = listed_group d.
Proof.
  induction described as [|d rest IH]; intros m0 g sg H; simpl in H.
  - left. exact H.
  - apply IH in H. destruct H as [H|(d0 & Hin & Hg & Hsg)].
    + destruct (decide (GroupId d = g)) as [Heq|Hne].
      * rewrite <- Heq, lookup_insert_eq in H. injection H as <-.
        right. exists d. split; [left|]. split; [exact Heq|reflexivity].
      * rewrite lookup_insert_ne in H by exact Hne. left. exact H.
    + right. exists d0. split; [right; exact Hin|]. split; assumption.
Qed.

Ltac peel H :=
  apply bind_val in H;
  let a := fresh "x" in
  let l := fresh "log" in
  let H1 := fresh "Hstage" in
  destruct H as (a & l & H1 & H); cbn beta zeta in H.

(** The eight listings of find_orphans, each with the groups it started
    from and those it left. *)
Ltac stages H :=
  unfold find_orphans in H; peel H;
  do 7 (peel H; peel H);
  peel H.

Lemma get_security_group_list_val a vpc log groups log' :
  get_security_group_list a vpc log = (Val groups, log') ->
  exists described,
    ec2_describe_security_groups a vpc = Ok described /\
    log' = log ++ [Call (Ec2DescribeSecurityGroups vpc)] /\
    groups = foldl (fun groups d => <[GroupId d := listed_group d]> groups) ∅ described.
Proof.
  unfold get_security_group_list. intros H.
  apply bind_val in H. destruct H as (described & log1 & Hc & H).
  apply call_val in Hc. destruct Hc as [Hd ->].
  injection H as <- <-. exists described. repeat split. exact Hd.
Qed.

(** What find_orphans returns is part of what get_security_group_list gave
    it. *)
Lemma find_orphans_sub fuel a vpc log groups log' :
  find_orphans fuel a vpc log = (Val groups, log') ->
  exists groups0 log0,
    get_security_group_list a vpc log = (Val groups0, log0) /\ groups ⊆ groups0.
Proof.
  intros H. stages H.
  apply paginate_sub in H; [|shrinks_tac].
  repeat match goal with
         | Hs : paginate _ _ _ _ _ _ _ = (Val _, _) |- _ =>
             apply paginate_sub in Hs; [|shrinks_tac]
         end.
  eexists _, _. split; [eassumption|].
  repeat (etrans; [eassumption|]). reflexivity.
Qed.

(** X18: every group find_orphans reports is a group that
    describe_security_groups gave for the VPC, under its own GroupId and
    with empty Resources: the function only takes groups away. *)
Theorem orphans_are_described_groups fuel a vpc log groups log' :
  find_orphans fuel a vpc log = (Val groups, log') ->
  exists described,
    ec2_describe_security_groups a vpc = Ok described /\
    forall g sg, groups !! g = Some sg ->
      exists d, d ∈ described /\ GroupId d = g /\ sg = listed_group d.
Proof.
  intros H. apply find_orphans_sub in H.
  destruct H as (groups0 & log0 & Hg & Hsub).
  apply get_security_group_list_val in Hg.
  destruct Hg as (described & Hd & _ & ->).
  exists described. split; [exact Hd|]. intros g sg Hl.
  eapply lookup_weaken in Hl; [|exact Hsub].
  apply listed_groups_lookup in Hl. destruct Hl as [Hl|Hl]; [|exact Hl].
  rewrite lookup_empty in Hl. discriminate Hl.
Qed.

Lemma orphans_are_described_groups_witness :
  let r := find_orphans 2 small_account "vpc-1" [] in
  exists groups, r.1 = Val groups /\
  exists described,
    ec2_describe_security_groups small_account "vpc-1" = Ok described /\
    forall g sg, groups !! g = Some sg ->
      exists d, d ∈ described /\ GroupId d = g /\ sg = listed_group d.
Proof.
  intros r.
  destruct r as [o log'] eqn:Hr.
  assert (Ho : o = Val {[ "sg-2" := {| GroupId := "sg-2"; GroupName := "old";
                                       Resources := [] |} ]}).
  { replace o with r.1 by (rewrite Hr; reflexivity). vm_compute. reflexivity. }
  subst o. eexists. split; [reflexivity|].
  exact (orphans_are_described_groups 2 small_account "vpc-1" [] _ log' Hr).
Defined.

(** *** accounted *)

Lemma warns_snoc log eff :
  warns (log ++ [eff]) = warns log + (if is_warn eff then 1 else 0).
Proof.
  unfold warns. rewrite List.filter_app, length_app. simpl.
  destruct (is_warn eff); reflexivity.
Qed.

Lemma size_delete_present (groups : sg_list) g sg :
  groups !! g = Some sg -> S (size (delete g groups)) = size groups.
Proof.
  intros H. rewrite <- (insert_id groups g sg H) at 2.
  rewrite <- insert_delete_eq.
  rewrite map_size_insert_None by apply lookup_delete_eq. reflexivity.
Qed.

Lemma accounted_ret groups : accounted groups (mret groups).
Proof. intros log groups' log' H. injection H as <- <-. reflexivity. Qed.

Lemma accounted_discard svc g groups : accounted groups (discard svc g groups).
Proof.
  intros log groups' log'. unfold discard.
  destruct (groups !! g) as [sg|] eqn:Hg.
  - intros H. injection H as <- <-. rewrite warns_snoc. simpl.
    pose proof (size_delete_present groups g sg Hg). lia.
  - intros H. injection H as <- <-. reflexivity.
Qed.

Lemma accounted_bind groups (m : M sg_list) (f : sg_list -> M sg_list) :
  accounted groups m -> (forall g1, accounted g1 (f g1)) ->
  accounted groups (mbind f m).
Proof.
  intros Hm Hf log groups' log' H.
  apply bind_val in H. destruct H as (g1 & log1 & H1 & H2).
  pose proof (Hm _ _ _ H1). pose proof (Hf _ _ _ _ H2). lia.
Qed.

Lemma accounted_bind_call {A} groups c (reply : result A) (f : A -> M sg_list) :
  (forall a, accounted groups (f a)) -> accounted groups (mbind f (call c reply)).
Proof.
  intros Hf log groups' log' H.
  apply bind_val in H. destruct H as (a & log1 & H1 & H2).
  apply call_val in H1. destruct H1 as [_ ->].
  pose proof (Hf _ _ _ _ H2) as H3. rewrite warns_snoc in H3. simpl in H3. lia.
Qed.

Lemma accounted_for_each {A} (xs : list A) body :
  (forall x groups, accounted groups (body x groups)) ->
  forall groups, accounted groups (for_each xs body groups).
Proof.
  intros Hb. induction xs as [|x rest IH]; intros groups; simpl.
  - apply accounted_ret.
  - apply accounted_bind; [apply Hb|exact IH].
Qed.

Lemma accounted_paginate {P} fuel mk (reply : option string -> result P) next body :
  (forall page groups, accounted groups (body page groups)) ->
  forall page groups,
    accounted groups
      (paginate fuel (fun tok => call (mk tok) (reply tok)) next body page groups).
Proof.
  intros Hb. induction fuel as [|fuel IH]; intros page groups; simpl.
  - intros log groups' log' H. discriminate H.
  - apply accounted_bind; [apply Hb|]. intros g1.
    destruct (truthy (next page)); [|apply accounted_ret].
    apply accounted_bind_call. intros page'. apply IH.
Qed.

Ltac accounted_tac :=
  repeat first
    [ apply accounted_ret
    | apply accounted_discard
    | apply accounted_for_each
    | apply accounted_bind_call
    | progress intros
    | match goal with |- accounted _ (match ?x with _ => _ end) => destruct x end ].

Lemma paginate_accounted {P} fuel mk (reply : option string -> result P) next body
    page g log g' log' :
  paginate fuel (fun tok => call (mk tok) (reply tok)) next body page g log
  = (Val g', log') ->
  (forall page groups, accounted groups (body page groups)) ->
  size g' + warns log' = size g + warns log.
Proof.
  intros H Hb. exact (accounted_paginate fuel mk reply next body Hb page g _ _ _ H).
Qed.

Lemma call_warns {A} c (reply : result A) log a log' :
  call c reply log = (Val a, log') -> warns log' = warns log.
Proof.
  intros H. apply call_val in H. destruct H as [_ ->].
  rewrite warns_snoc. simpl. lia.
Qed.

(** X19: find_orphans calls logger.warn exactly once for every group it
    takes out of the list: the groups it was given by
    get_security_group_list are as many as the groups it returns and the
    warnings it made, together. *)
Theorem one_warning_per_group_in_use fuel a vpc log groups log' :
  find_orphans fuel a vpc log = (Val groups, log') ->
  exists groups0 log0,
    get_security_group_list a vpc log = (Val groups0, log0) /\
    size groups + warns log' = size groups0 + warns log.
Proof.
  intros H. stages H.
  apply paginate_accounted in H; [|accounted_tac].
  repeat match goal with
         | Hs : paginate _ _ _ _ _ _ _ = (Val _, _) |- _ =>
             apply paginate_accounted in Hs; [|accounted_tac]
         | Hs : call _ _ _ = (Val _, _) |- _ => apply call_warns in Hs
         end.
  eexists _, _. split; [eassumption|].
  match goal with
  | Hg : get_security_group_list _ _ _ = _ |- _ =>
      apply get_security_group_list_val in Hg;
      destruct Hg as (described & _ & Hlog & _);
      apply (f_equal warns) in Hlog; rewrite warns_snoc in Hlog; simpl in Hlog
  end.
  lia.
Qed.

Lemma one_warning_per_group_in_use_witness :
  exists groups log',
    find_orphans 2 small_account "vpc-1" [] = (Val groups, log') /\
    exists groups0 log0,
      get_security_group_list small_account "vpc-1" [] = (Val groups0, log0) /\
      size groups + warns log' = size groups0 + warns [].
Proof.
  destruct (find_orphans 2 small_account "vpc-1" []) as [o log'] eqn:Hr.
  assert (Ho : o = Val {[ "sg-2" := {| GroupId := "sg-2"; GroupName := "old";
                                       Resources := [] |} ]}).
  { replace o with (find_orphans 2 small_account "vpc-1" []).1
      by (rewrite Hr; reflexivity).
    vm_compute. reflexivity. }
  subst o. eexists _, _. split; [reflexivity|].
  exact (one_warning_per_group_in_use 2 small_account "vpc-1" [] _ log' Hr).
Defined.

(** *** removes *)

Lemma removes_discard svc g groups : removes g (discard svc g groups).
Proof.
  intros log groups'. unfold discard. destruct (groups !! g) eqn:Hg; simpl.
  - intros [= <-]. apply lookup_delete_eq.
  - intros [= <-]. exact Hg.
Qed.

(** Once a group is out, what follows leaves it out. *)
Lemma removes_then g (m : M sg_list) (f : sg_list -> M sg_list) :
  removes g m -> (forall g1, shrinks g1 (f g1)) -> removes g (mbind f m).
Proof.
  intros Hm Hf log groups' H.
  destruct (mbind f m log) as [o log'] eqn:Hb. simpl in H. subst o.
  apply bind_val in Hb. destruct Hb as (g1 & log1 & H1 & H2).
  eapply lookup_weaken_None.
  - apply (Hm log). rewrite H1. reflexivity.
  - apply (Hf g1 log1). rewrite H2. reflexivity.
Qed.

Lemma removes_after {A} g (m : M A) (f : A -> M sg_list) :
  (forall a, removes g (f a)) -> removes g (mbind f m).
Proof.
  intros Hf log groups' H.
  destruct (mbind f m log) as [o log'] eqn:Hb. simpl in H. subst o.
  apply bind_val in Hb. destruct Hb as (a & log1 & H1 & H2).
  apply (Hf a log1). rewrite H2. reflexivity.
Qed.

Lemma removes_after_call {A} g c (reply : result A) (f : A -> M sg_list) :
  (forall a, reply = Ok a -> removes g (f a)) -> removes g (mbind f (call c reply)).
Proof.
  intros Hf log groups' H.
  destruct (mbind f (call c reply) log) as [o log'] eqn:Hb. simpl in H. subst o.
  apply bind_val in Hb. destruct Hb as (a & log1 & H1 & H2).
  apply call_val in H1. destruct H1 as [Ha _].
  apply (Hf a Ha log1). rewrite H2. reflexivity.
Qed.

Lemma removes_for_each {A} g (xs : list A) body x :
  x ∈ xs ->
  (forall y groups, shrinks groups (body y groups)) ->
  (forall groups, removes g (body x groups)) ->
  forall groups, removes g (for_each xs body groups).
Proof.
  intros Hin Hs Hx. induction xs as [|y rest IH]; intros groups.
  - by apply elem_of_nil in Hin.
  - simpl. apply elem_of_cons in Hin. destruct Hin as [->|Hin].
    + apply removes_then; [apply Hx|].
      intros g1. apply shrinks_for_each. exact Hs.
    + apply removes_after. intros g1. apply IH. exact Hin.
Qed.

Lemma removes_paginate {P} g mk (reply : option string -> result P) next body
    fuel page p :
  Visited reply next fuel page p ->
  (forall q groups, shrinks groups (body q groups)) ->
  (forall groups, removes g (body p groups)) ->
  forall groups,
    removes g
      (paginate fuel (fun tok => call (mk tok) (reply tok)) next body page groups).
Proof.
  intros Hv Hs Hp. induction Hv as [fuel page|fuel page tok page' p Ht Hr Hv IH];
    intros groups; simpl.
  - apply removes_then; [apply Hp|]. intros g1.
    destruct (truthy (next page)); [|apply shrinks_ret].
    apply shrinks_bind_any. intros page'. apply shrinks_paginate. exact Hs.
  - apply removes_after. intros g1. rewrite Ht.
    apply removes_after_call. intros q Hq.
    rewrite Hr in Hq. injection Hq as <-. apply (IH Hp).
Qed.

(** The loop body of the EC2 listing takes out a group named by an instance
    of the page. *)
Lemma instances_body_removes page reservation inst sg :
  reservation ∈ Reservations page -> inst ∈ Instances reservation ->
  sg ∈ SecurityGroups inst ->
  forall groups,
    removes (gi_GroupId sg)
      (for_each (Reservations page)
         (fun reservation =>
            for_each (Instances reservation)
              (fun inst =>
                 for_each (SecurityGroups inst)
                   (fun sg => discard "EC2" (gi_GroupId sg))))
         groups).
Proof.
  intros Hres Hinst Hsg.
  apply (removes_for_each (gi_GroupId sg) (Reservations page) _ reservation Hres);
    [shrinks_tac|].
  apply (removes_for_each (gi_GroupId sg) (Instances reservation) _ inst Hinst);
    [shrinks_tac|].
  apply (removes_for_each (gi_GroupId sg) (SecurityGroups inst) _ sg Hsg);
    [shrinks_tac|].
  apply removes_discard.
Qed.

(** X20: a security group attached to an EC2 instance is not reported as an
    orphan: if the group is named by an instance on any page of
    describe_instances that the loop goes through, it is not in what
    find_orphans returns. *)
Theorem group_of_instance_not_orphan fuel a vpc log groups log'
    first page reservation inst sg :
  ec2_describe_instances a None = Ok first ->
  Visited (ec2_describe_instances a) NextToken fuel first page ->
  reservation ∈ Reservations page -> inst ∈ Instances reservation ->
  sg ∈ SecurityGroups inst ->
  find_orphans fuel a vpc log = (Val groups, log') ->
  groups !! gi_GroupId sg = None.
Proof.
  intros Hfirst Hv Hres Hinst Hsg H. stages H.
  match goal with
  | Hc : call (Ec2DescribeInstances None) _ _ = (Val ?x, _) |- _ =>
      apply call_val in Hc; destruct Hc as [Hc _];
      rewrite Hfirst in Hc; injection Hc as <-
  end.
  match goal with
  | Hp : paginate _ _ NextToken ?body _ ?g0 ?l = (Val ?x, _) |- _ =>
      pose proof (removes_paginate (gi_GroupId sg) Ec2DescribeInstances
                    (ec2_describe_instances a) NextToken body fuel first page Hv)
        as Hrm;
      assert (Hgone : x !! gi_GroupId sg = None);
      [apply (Hrm ltac:(shrinks_tac)
                  (instances_body_removes page reservation inst sg Hres Hinst Hsg)
                  g0 l);
       rewrite Hp; reflexivity
      |clear Hp Hrm]
  end.
  apply paginate_sub in H; [|shrinks_tac].
  repeat match goal with
         | Hs : paginate _ _ _ _ _ _ _ = (Val _, _) |- _ =>
             apply paginate_sub in Hs; [|shrinks_tac]
         end.
  eapply lookup_weaken_None; [exact Hgone|].
  repeat (etrans; [eassumption|]). reflexivity.
Qed.

Lemma group_of_instance_not_orphan_witness :
  exists groups log',
    find_orphans 2 small_account "vpc-1" [] = (Val groups, log') /\
    groups !! "sg-1" = None.
Proof.
  destruct (find_orphans 2 small_account "vpc-1" []) as [o log'] eqn:Hr.
  assert (Ho : o = Val {[ "sg-2" := {| GroupId := "sg-2"; GroupName := "old";
                                       Resources := [] |} ]}).
  { replace o with (find_orphans 2 small_account "vpc-1" []).1
      by (rewrite Hr; reflexivity).
    vm_compute. reflexivity. }
  subst o. eexists _, _. split; [reflexivity|].
  set (second := {| Reservations :=
                      [ {| Instances :=
                             [ {| SecurityGroups := [ {| gi_GroupId := "sg-1" |} ] |} ] |} ];
                    NextToken := None |}).
  apply (group_of_instance_not_orphan 2 small_account "vpc-1" [] _ log'
           {| Reservations := []; NextToken := Some "t1" |} second
           {| Instances := [ {| SecurityGroups := [ {| gi_GroupId := "sg-1" |} ] |} ] |}
           {| SecurityGroups := [ {| gi_GroupId := "sg-1" |} ] |}
           {| gi_GroupId := "sg-1" |}).
  - reflexivity.
  - eapply Visited_next; [reflexivity|reflexivity|]. apply Visited_here.
  - left.
  - left.
  - left.
  - exact Hr.
Defined.

(** *** A failed call is the last thing find_orphans does *)

Lemma fails_ret {A} a (x : A) : fails_at_call a (mret x).
Proof.
  intros log. exists []. split; [symmetry; apply app_nil_r|].
  split; [constructor|]. intros e H. discriminate H.
Qed.

Lemma fails_loops {A} a : fails_at_call a (@loops A).
Proof.
  intros log. exists []. split; [symmetry; apply app_nil_r|].
  split; [constructor|]. intros e H. discriminate H.
Qed.

Lemma fails_call {A} a c (reply : result A) :
  raised_by a c = failure reply -> fails_at_call a (call c reply).
Proof.
  intros Hc log. exists [Call c]. split; [reflexivity|].
  split; [constructor; [exact I|constructor]|].
  intros e H. exists [], c. split; [reflexivity|].
  rewrite Hc. unfold call in H. simpl in H.
  destruct reply as [x|e0]; [discriminate H|]. simpl. congruence.
Qed.

Lemma fails_warn a g svc : fails_at_call a (warn g svc).
Proof.
  intros log. exists [Warn g svc]. split; [reflexivity|].
  split; [constructor; [exact I|constructor]|]. intros e H. discriminate H.
Qed.

Lemma fails_bind {A B} a (m : M A) (f : A -> M B) :
  fails_at_call a m -> (forall x, fails_at_call a (f x)) ->
  fails_at_call a (mbind f m).
Proof.
  intros Hm Hf log. unfold mbind, M_bind.
  destruct (Hm log) as (more & Hlog & Hs & He).
  destruct (m log) as [[x|e|] log1]; simpl in Hlog; subst log1.
  - destruct (Hf x (log ++ more)) as (more' & Hlog' & Hs' & He').
    exists (more ++ more'). rewrite Hlog', app_assoc. split; [reflexivity|].
    split; [apply Forall_app; split; assumption|].
    intros e H. destruct (He' e H) as (before & c & -> & Hc).
    exists (more ++ before), c. rewrite app_assoc. split; [reflexivity|exact Hc].
  - exists more. split; [reflexivity|]. split; [exact Hs|].
    intros e0 H. simpl in H. injection H as <-. apply He. reflexivity.
  - exists more. split; [reflexivity|]. split; [exact Hs|].
    intros e0 H. discriminate H.
Qed.

Lemma fails_discard a svc g groups : fails_at_call a (discard svc g groups).
Proof.
  unfold discard. destruct (groups !! g).
  - apply fails_bind; [apply fails_warn|intros; apply fails_ret].
  - apply fails_ret.
Qed.

Lemma fails_for_each {A} a (xs : list A) body :
  (forall x groups, fails_at_call a (body x groups)) ->
  forall groups, fails_at_call a (for_each xs body groups).
Proof.
  intros Hb. induction xs as [|x rest IH]; intros groups; simpl.
  - apply fails_ret.
  - apply fails_bind; [apply Hb|exact IH].
Qed.

Lemma fails_paginate {P} a fuel (fetch : option string -> M P) next body :
  (forall tok, fails_at_call a (fetch tok)) ->
  (forall page groups, fails_at_call a (body page groups)) ->
  forall page groups, fails_at_call a (paginate fuel fetch next body page groups).
Proof.
  intros Hf Hb. induction fuel as [|fuel IH]; intros page groups; simpl.
  - apply fails_loops.
  - apply fails_bind; [apply Hb|]. intros groups'.
    destruct (truthy (next page)).
    + apply fails_bind; [apply Hf|]. intros page'. apply IH.
    + apply fails_ret.
Qed.

Ltac fails_tac :=
  repeat first
    [ apply fails_ret
    | apply fails_discard
    | apply fails_call; reflexivity
    | apply fails_bind
    | apply fails_paginate
    | apply fails_for_each
    | progress intros
    | match goal with
      | |- fails_at_call _ (match ?x with _ => _ end) => destruct x
      end ].

Lemma fails_find_orphans fuel a vpc : fails_at_call a (find_orphans fuel a vpc).
Proof.
  unfold find_orphans, get_security_group_list. fails_tac.
Qed.

(** X21: when a remote call of find_orphans fails, main stops there: it
    makes no further call, prints nothing but the exception, and the
    exception it prints is the one that call raised.  Before the failure
    only remote calls and warnings have happened. *)
Theorem failed_call_ends_main fuel a ar vpc log e :
  truthy (vpc_id ar) = Some vpc ->
  (find_orphans fuel a vpc log).1 = Exc e ->
  exists before c,
    raised_by a c = Some e /\ Forall silent before /\
    (main fuel a ar log).2 = log ++ before ++ [Call c; PrintException e].
Proof.
  intros Hvpc He.
  destruct (fails_find_orphans fuel a vpc log) as (more & Hlog & Hs & Hlast).
  destruct (Hlast e He) as (before & c & -> & Hc).
  exists before, c. split; [exact Hc|].
  split; [apply Forall_app in Hs; apply Hs|].
  unfold main. rewrite Hvpc.
  destruct (delete_flag ar);
    unfold catch_print, remove_orphans, mbind, M_bind;
    destruct (find_orphans fuel a vpc log) as [[groups|e0|] log1];
    simpl in He, Hlog; try discriminate He;
    injection He as <-; subst log1;
    cbn [snd]; rewrite <- ?app_assoc; reflexivity.
Qed.

Lemma failed_call_ends_main_witness :
  let ar := {| vpc_id := Some "vpc-1"; verbose := false; profile := "default";
               delete_flag := false; display := true |} in
  exists before c,
    raised_by denied_account c = Some (ClientError "AccessDenied") /\
    Forall silent before /\
    (main 2 denied_account ar []).2
    = [] ++ before ++ [Call c; PrintException (ClientError "AccessDenied")].
Proof.
  intros ar.
  apply (failed_call_ends_main 2 denied_account ar "vpc-1" []
           (ClientError "AccessDenied")).
  - reflexivity.
  - vm_compute. reflexivity.
Defined.

End SgOrphansProofs.
